(** * Scheduling conflict and availability core

    A shallow embedding of the scheduler's domain rules
    ([domain/schedulerRules]), time utilities ([utils/schedule]) and the
    local optimistic store ([api/localSchedulerApi]), with the properties
    of the design document stated and settled against it, followed by
    the checks the App and the calendar make before they call the
    store, and the slots and segments of the availability grid. *)

From Stdlib Require Import ZArith Lia Ascii String.
From stdpp Require Import base option list strings gmap sorting pretty.

Local Open Scope Z_scope.

(** ** JavaScript values used by the program *)

(** A number that is an integer or [NaN]; every comparison with [NaN]
    is false. *)
Definition num := option Z.

Definition num_lt (a b : num) : bool :=
  match a, b with Some x, Some y => x <? y | _, _ => false end.

Definition num_le (a b : num) : bool :=
  match a, b with Some x, Some y => x <=? y | _, _ => false end.

Definition num_gt (a b : num) : bool := num_lt b a.
Definition num_ge (a b : num) : bool := num_le b a.

Definition num_add (a b : num) : num :=
  match a, b with Some x, Some y => Some (x + y) | _, _ => None end.

Definition num_mul (a b : num) : num :=
  match a, b with Some x, Some y => Some (x * y) | _, _ => None end.

(** A [Date] object: a time value in milliseconds since the epoch, or
    an Invalid Date, whose time value is [NaN]. *)
Inductive Date := InvalidDate | At (ms : Z).

Definition getTime (d : Date) : num :=
  match d with InvalidDate => None | At ms => Some ms end.

(** Relational operators on dates compare the time values. *)
Definition date_lt (a b : Date) : bool := num_lt (getTime a) (getTime b).
Definition date_gt (a b : Date) : bool := num_gt (getTime a) (getTime b).

(** Truthiness of an optional string property: [undefined] and the
    empty string are falsy. *)
Definition truthy (o : option string) : bool :=
  match o with
  | Some s => negb (bool_decide (s = EmptyString))
  | None => false
  end.

(** Strict (in)equality of strings. *)
Definition str_eq (a b : string) : bool := bool_decide (a = b).
Definition str_neq (a b : string) : bool := negb (bool_decide (a = b)).

(** What a call produces: a value, or a thrown exception. *)
Inductive Exception :=
  | Error (message : string)
  | RangeError (message : string).

Inductive Outcome (A : Type) :=
  | Throw (e : Exception)
  | Return (a : A).
Global Arguments Throw {A} e.
Global Arguments Return {A} a.

Global Instance outcome_ret : MRet Outcome := λ A a, Return a.
Global Instance outcome_bind : MBind Outcome := λ A B f o,
  match o with Throw e => Throw e | Return a => f a end.

(** [value.split(sep)] for a one-character separator. *)
Fixpoint split_from (sep : ascii) (cur s : string) : list string :=
  match s with
  | EmptyString => [cur]
  | String c rest =>
      if Ascii.eqb c sep then cur :: split_from sep EmptyString rest
      else split_from sep (cur +:+ String c EmptyString) rest
  end.

Definition split (sep : ascii) (s : string) : list string :=
  split_from sep EmptyString s.

(** The platform's date and number primitives the program calls. The
    properties below hold for every platform; [utc] further down is a
    concrete one used for the examples. *)
Class Platform := {
  (** [new Date(value)] *)
  newDate : string → Date;
  (** [getDay()], [getHours()], [getMinutes()] of a valid time value,
      in local time *)
  localDay : Z → Z;
  localHours : Z → Z;
  localMinutes : Z → Z;
  (** [toISOString().split('T')[0]] of a valid time value *)
  isoDatePart : Z → string;
  (** [Number(s)] *)
  toNumber : string → num;
}.

(** ** types *)

Inductive StaffRole := PT | OT | Speech.
Inductive AppointmentType := Evaluation | Followup.
Inductive AppointmentStatus :=
  Scheduled | CheckIn | InProgress | Completed | Incomplete.
Inductive AppointmentMode := InClinic | Telephonic.
Inductive AuditKind := Created | Rescheduled | Cancelled | StatusChange.

Global Instance AppointmentStatus_eq_dec : EqDecision AppointmentStatus.
Proof. solve_decision. Defined.
Global Instance AuditKind_eq_dec : EqDecision AuditKind.
Proof. solve_decision. Defined.

(** The optional [from] / [to] payload of an audit event. *)
Record AuditDelta := {
  d_start : option string;
  d_end : option string;
  d_status : option AppointmentStatus;
}.

Record AppointmentAuditEvent := {
  ev_at : string;
  ev_by : string;
  ev_type : AuditKind;
  ev_from : option AuditDelta;
  ev_to : option AuditDelta;
  ev_note : option string;
}.

Record WorkingHours := {
  wh_start : string;
  wh_end : string;
  wh_days : list num;
}.

Record Therapist := {
  t_id : string;
  t_name : string;
  t_role : StaffRole;
  t_clinicId : string;
  t_workingHours : WorkingHours;
}.

Record Appointment := {
  a_id : string;
  a_clinicId : string;
  a_therapistId : string;
  a_patient : string;
  a_start : string;
  a_end : string;
  a_type : AppointmentType;
  a_mode : AppointmentMode;
  a_status : AppointmentStatus;
  a_createdBy : string;
  a_updatedAt : string;
  a_cancelledAt : option string;
  a_cancelledBy : option string;
  a_audit : list AppointmentAuditEvent;
}.

Inductive LockReason := Booked.

Record SlotLock := {
  l_id : string;
  l_therapistId : string;
  l_start : string;
  l_end : string;
  l_lockedBy : string;
  l_reason : LockReason;
}.

Record TimeAway := {
  ta_id : string;
  ta_therapistId : string;
  ta_date : string;
  ta_start : string;
  ta_end : string;
  ta_reason : string;
}.

(** ** utils/schedule *)

Definition overlaps (startA endA startB endB : Date) : bool :=
  date_lt startA endB && date_gt endA startB.

Section Schedule.
Context `{Platform}.

Definition parseISO (value : string) : Date := newDate value.

(** The comparator handed to [sort]: the difference of the start
    times, [NaN] when one of them is invalid. *)
Definition byStart (a b : Appointment) : num :=
  match getTime (parseISO (a_start a)), getTime (parseISO (a_start b)) with
  | Some x, Some y => Some (x - y)
  | _, _ => None
  end.

(** [[...list].sort(byStart)]: a stable sort, so an element moves behind
    a later one only when the comparator is positive ([NaN] counts as
    zero). With invalid dates the comparator is inconsistent and the
    order the engine produces is not determined. *)
Fixpoint insertSorted (x : Appointment) (l : list Appointment) : list Appointment :=
  match l with
  | [] => [x]
  | y :: l' =>
      if num_gt (byStart x y) (Some 0) then y :: insertSorted x l'
      else x :: y :: l'
  end.

Definition sortByStart (l : list Appointment) : list Appointment :=
  foldr insertSorted [] l.

(** The [reduce] that groups the non-cancelled appointments by
    therapist, each group in list order. *)
Definition groupStep (acc : gmap string (list Appointment)) (appt : Appointment)
    : gmap string (list Appointment) :=
  if truthy (a_cancelledAt appt) then acc
  else <[a_therapistId appt :=
           default [] (acc !! a_therapistId appt) ++ [appt]]> acc.

Definition grouped (appts : list Appointment) : gmap string (list Appointment) :=
  fold_left groupStep appts ∅.

(** The loop over [i] and [i + 1] of one sorted group. *)
Fixpoint scanAdjacent (sorted : list Appointment) (conflicts : gset string)
    : gset string :=
  match sorted with
  | current :: rest =>
      match rest with
      | next :: _ =>
          scanAdjacent rest
            (if overlaps (parseISO (a_start current)) (parseISO (a_end current))
                         (parseISO (a_start next)) (parseISO (a_end next))
             then {[a_id next]} ∪ ({[a_id current]} ∪ conflicts)
             else conflicts)
      | [] => conflicts
      end
  | [] => conflicts
  end.

Definition detectConflicts (appts : list Appointment) : gset string :=
  map_fold (λ _ list conflicts, scanAdjacent (sortByStart list) conflicts)
           ∅ (grouped appts).

End Schedule.

(** ** domain/schedulerRules *)

Record AvailabilityContext := {
  therapists : list Therapist;
  timeAway : list TimeAway;
}.

(** The value [canScheduleWindow] returns: [{ ok: true }] or
    [{ ok: false, reason }]. *)
Inductive WindowCheck :=
  | Ok
  | NotOk (reason : string).

Definition isLockedAppointment (appt : Appointment) (clientId : string) : bool :=
  str_neq (a_createdBy appt) clientId.

Definition isCancelled (appt : Appointment) : bool :=
  truthy (a_cancelledAt appt).

Definition lockOf (a : Appointment) : SlotLock :=
  {| l_id := "lock_" +:+ a_id a;
     l_therapistId := a_therapistId a;
     l_start := a_start a;
     l_end := a_end a;
     l_lockedBy := a_createdBy a;
     l_reason := Booked |}.

Definition getLocksForRange (appointments : list Appointment) (clientId : string)
    : list SlotLock :=
  map lockOf
    (List.filter (λ a, str_neq (a_createdBy a) clientId)
       (List.filter (λ a, negb (truthy (a_cancelledAt a))) appointments)).

Definition nextAllowedStatuses (s : AppointmentStatus) : list AppointmentStatus :=
  match s with
  | Scheduled => [CheckIn; InProgress; Completed; Incomplete]
  | CheckIn => [InProgress; Completed; Incomplete]
  | InProgress => [Completed; Incomplete]
  | Completed => []
  | Incomplete => []
  end.

Section Rules.
Context `{Platform}.

Definition getDay (d : Date) : num :=
  match d with InvalidDate => None | At ms => Some (localDay ms) end.

Definition getHours (d : Date) : num :=
  match d with InvalidDate => None | At ms => Some (localHours ms) end.

Definition getMinutes (d : Date) : num :=
  match d with InvalidDate => None | At ms => Some (localMinutes ms) end.

(** [d.toISOString().split('T')[0]]; [toISOString] throws on an
    Invalid Date. *)
Definition isoDay (d : Date) : Outcome string :=
  match d with
  | InvalidDate => Throw (RangeError "Invalid time value")
  | At ms => Return (isoDatePart ms)
  end.

Definition slotOverlapsLocks (therapistId : string) (start end_ : Date)
    (locks : list SlotLock) : bool :=
  existsb (λ lock,
    if str_neq (l_therapistId lock) therapistId then false
    else overlaps start end_ (parseISO (l_start lock)) (parseISO (l_end lock)))
    locks.

Definition hasAppointmentOverlap (appointments : list Appointment)
    (therapistId : string) (start end_ : Date)
    (ignoreAppointmentId : option string) : bool :=
  existsb (λ a,
    if truthy (a_cancelledAt a) then false
    else if str_neq (a_therapistId a) therapistId then false
    else if truthy ignoreAppointmentId
            && bool_decide (Some (a_id a) = ignoreAppointmentId) then false
    else overlaps start end_ (parseISO (a_start a)) (parseISO (a_end a)))
    appointments.

(** [d.getHours() * 60 + d.getMinutes()] *)
Definition toMin (d : Date) : num :=
  num_add (num_mul (getHours d) (Some 60)) (getMinutes d).

(** [const [h, m] = value.split(':').map(Number); return h * 60 + m];
    a missing second part is [undefined] and makes the sum [NaN]. *)
Definition toMinHHmm (value : string) : num :=
  match map toNumber (split ":" value) with
  | h :: m :: _ => num_add (num_mul h (Some 60)) m
  | _ => None
  end.

(** [days.includes(dow)] compares with SameValueZero, under which
    [NaN] equals [NaN]: the equality of [num]. *)
Definition includes (days : list num) (dow : num) : bool :=
  bool_decide (dow ∈ days).

Definition withinTherapistWorkingHours (therapist : Therapist)
    (start end_ : Date) : bool :=
  let dow := getDay start in
  if negb (includes (wh_days (t_workingHours therapist)) dow) then false
  else
    let startMin := toMin start in
    let endMin := toMin end_ in
    num_ge startMin (toMinHHmm (wh_start (t_workingHours therapist)))
    && num_le endMin (toMinHHmm (wh_end (t_workingHours therapist))).

Definition hasTimeAwayConflict (therapistId : string) (start end_ : Date)
    (away : list TimeAway) : Outcome bool :=
  day ← isoDay start;
  mret (existsb (λ slot,
    if str_neq (ta_therapistId slot) therapistId then false
    else if str_neq (ta_date slot) day then false
    else
      let startWindow := parseISO (day +:+ "T" +:+ ta_start slot +:+ ":00") in
      let endWindow := parseISO (day +:+ "T" +:+ ta_end slot +:+ ":00") in
      overlaps start end_ startWindow endWindow)
    away).

Definition canScheduleWindow (therapistId : string) (start end_ : Date)
    (appointments : list Appointment) (locks : list SlotLock)
    (context : AvailabilityContext) (ignoreAppointmentId : option string)
    : Outcome WindowCheck :=
  match List.find (λ t, str_eq (t_id t) therapistId) (therapists context) with
  | None => mret (NotOk "Therapist not found")
  | Some therapist =>
      if negb (withinTherapistWorkingHours therapist start end_)
      then mret (NotOk "Outside working hours")
      else
        away ← hasTimeAwayConflict therapistId start end_ (timeAway context);
        if away : bool then mret (NotOk "Time off")
        else if slotOverlapsLocks therapistId start end_ locks
        then mret (NotOk "Slot locked by another user")
        else if hasAppointmentOverlap appointments therapistId start end_
                  ignoreAppointmentId
        then mret (NotOk "Overlapping appointment")
        else mret Ok
  end.

End Rules.

(** ** mockData: the seed the store starts from *)

Definition toISO (date time : string) : string := date +:+ "T" +:+ time +:+ ":00".

Definition seededBy : string := "seed".
Definition seededUpdatedAt : string := toISO "2025-01-01" "00:00".
Definition seedStatus : AppointmentStatus := Scheduled.
Definition seedMode : AppointmentMode := InClinic.

Definition seedAppointment (id clinic therapist patient date from to : string)
    (ty : AppointmentType) : Appointment :=
  {| a_id := id; a_clinicId := clinic; a_therapistId := therapist;
     a_patient := patient;
     a_start := toISO date from; a_end := toISO date to;
     a_type := ty; a_mode := seedMode; a_status := seedStatus;
     a_createdBy := seededBy; a_updatedAt := seededUpdatedAt;
     a_cancelledAt := None; a_cancelledBy := None;
     a_audit :=
       [ {| ev_at := seededUpdatedAt; ev_by := seededBy; ev_type := Created;
            ev_from := None;
            ev_to := Some {| d_start := Some (toISO date from);
                             d_end := Some (toISO date to);
                             d_status := Some seedStatus |};
            ev_note := None |} ] |}.

Definition seedAppointments : list Appointment :=
  [ seedAppointment "a1" "c1" "t1" "D. Carter" "2025-01-13" "09:00" "10:00" Evaluation;
    seedAppointment "a2" "c1" "t1" "R. Patel" "2025-01-13" "09:30" "10:30" Followup;
    seedAppointment "a3" "c2" "t2" "M. Young" "2025-01-14" "11:00" "12:00" Evaluation;
    seedAppointment "a4" "c3" "t3" "S. Hill" "2025-01-15" "14:00" "15:30" Followup;
    seedAppointment "a5" "c1" "t4" "A. Kim" "2025-01-15" "10:00" "11:00" Evaluation;
    seedAppointment "a6" "c2" "t2" "L. Brooks" "2025-01-16" "15:00" "16:30" Followup;
    seedAppointment "a7" "c1" "t5" "C. Nguyen" "2025-01-16" "09:30" "10:00" Followup ].

Definition mockTherapist (id name : string) (role : StaffRole)
    (clinic from to : string) : Therapist :=
  {| t_id := id; t_name := name; t_role := role; t_clinicId := clinic;
     t_workingHours :=
       {| wh_start := from; wh_end := to;
          wh_days := [Some 1; Some 2; Some 3; Some 4; Some 5] |} |}.

Definition mockTherapists : list Therapist :=
  [ mockTherapist "t1" "Alex Morgan" PT "c1" "08:00" "16:00";
    mockTherapist "t2" "Priya Desai" PT "c2" "09:00" "17:00";
    mockTherapist "t3" "Sofia Bennett" OT "c3" "10:00" "18:00";
    mockTherapist "t4" "Marcus Lee" Speech "c1" "08:00" "15:00";
    mockTherapist "t5" "Jamie Flores" PT "c3" "07:00" "12:00" ].

Definition mockTimeAway : list TimeAway :=
  [ {| ta_id := "away1"; ta_therapistId := "t2"; ta_date := "2025-01-16";
       ta_start := "13:00"; ta_end := "14:30"; ta_reason := "Training" |};
    {| ta_id := "away2"; ta_therapistId := "t3"; ta_date := "2025-01-14";
       ta_start := "10:00"; ta_end := "12:00"; ta_reason := "Outreach" |};
    {| ta_id := "away3"; ta_therapistId := "t4"; ta_date := "2025-01-17";
       ta_start := "09:00"; ta_end := "11:00"; ta_reason := "Time off" |} ].

(** ** api/localSchedulerApi *)

Record CreateAppointmentInput := {
  in_clinicId : string;
  in_therapistId : string;
  in_patient : string;
  in_start : string;
  in_end : string;
  in_type : AppointmentType;
  in_mode : AppointmentMode;
}.

(** [version] counts commits from 1 and stays far below 2^53, where
    number arithmetic is exact; it is kept as an integer. *)
Record StoredSchedulerState := {
  version : Z;
  updatedAt : string;
  appointments : list Appointment;
}.

(** What [localStorage] holds under the store's key: nothing, a string
    [JSON.parse] rejects, or a serialised state. Serialising a state and
    parsing it back gives the state again, so the stored item is kept
    as the state itself. *)
Inductive Storage :=
  | NoItem
  | Unparsable (raw : string)
  | Item (state : StoredSchedulerState).

(** A store operation runs on the storage and ends in a value or a
    throw. *)
Definition Op (A : Type) : Type := Storage → Storage * Outcome A.

Global Instance op_ret : MRet Op := λ A a s, (s, Return a).
Global Instance op_bind : MBind Op := λ A B f m s,
  match m s with
  | (s', Throw e) => (s', Throw e)
  | (s', Return a) => f a s'
  end.

(** A call of a function that only computes (and may throw). *)
Definition call {A} (o : Outcome A) : Op A := λ s, (s, o).

(** [readState]; [now] is the clock reading taken when the state has to
    be seeded. *)
Definition readState (now : string) : Op StoredSchedulerState := λ s,
  match s with
  | Item state => (s, Return state)
  | NoItem | Unparsable _ =>
      let initial :=
        {| version := 1; updatedAt := now; appointments := seedAppointments |} in
      (Item initial, Return initial)
  end.

Definition writeState (next : StoredSchedulerState) : Op unit := λ _,
  (Item next, Return tt).

Definition buildLocks (appointments : list Appointment) (clientId : string)
    : list SlotLock :=
  map (λ a, {| l_id := "lock_" +:+ a_id a;
               l_therapistId := a_therapistId a;
               l_start := a_start a;
               l_end := a_end a;
               l_lockedBy := a_createdBy a;
               l_reason := Booked |})
    (List.filter (λ a, str_neq (a_createdBy a) clientId)
       (List.filter (λ a, negb (truthy (a_cancelledAt a))) appointments)).

Definition findAppointmentOrThrow (appointments : list Appointment) (id : string)
    : Outcome Appointment :=
  match List.find (λ a, str_eq (a_id a) id) appointments with
  | None => Throw (Error "Appointment not found")
  | Some appt => Return appt
  end.

Definition assertOwnedOrThrow (appt : Appointment) (clientId : string)
    : Outcome unit :=
  if str_neq (a_createdBy appt) clientId
  then Throw (Error "Appointment is locked by another user")
  else if truthy (a_cancelledAt appt)
  then Throw (Error "Appointment is cancelled")
  else Return tt.

Section Store.
Context `{Platform}.

Definition assertNoOverlapOrThrow (appointments : list Appointment)
    (candidate : Appointment) : Outcome unit :=
  let start := parseISO (a_start candidate) in
  let end_ := parseISO (a_end candidate) in
  let hasOverlap :=
    existsb (λ a,
      if truthy (a_cancelledAt a) then false
      else if str_eq (a_id a) (a_id candidate) then false
      else if str_neq (a_therapistId a) (a_therapistId candidate) then false
      else overlaps start end_ (parseISO (a_start a)) (parseISO (a_end a)))
      appointments in
  if hasOverlap then Throw (Error "Overlapping booking for this resource")
  else Return tt.

(** The session the API object was created for. *)
Context (clientId : string).

(** [appointments.map((a) => (a.id === id ? nextAppt : a))] *)
Definition replaceById (id : string) (nextAppt : Appointment)
    (appointments : list Appointment) : list Appointment :=
  map (λ a, if str_eq (a_id a) id then nextAppt else a) appointments.

(** In every command [seededAt] is the clock reading [readState] takes
    when it has to seed the storage and [at_] the reading the command
    takes itself; [createAppointment] also draws [newId] from
    [randomId]. *)
Definition createAppointment (input : CreateAppointmentInput) (newId : string)
    (seededAt at_ : string) : Op Appointment :=
  state ← readState seededAt;
  let appt :=
    {| a_id := newId;
       a_clinicId := in_clinicId input;
       a_therapistId := in_therapistId input;
       a_patient := in_patient input;
       a_start := in_start input;
       a_end := in_end input;
       a_type := in_type input;
       a_mode := in_mode input;
       a_status := Scheduled;
       a_createdBy := clientId;
       a_updatedAt := at_;
       a_cancelledAt := None;
       a_cancelledBy := None;
       a_audit :=
         [ {| ev_at := at_; ev_by := clientId; ev_type := Created;
              ev_from := None;
              ev_to := Some {| d_start := Some (in_start input);
                               d_end := Some (in_end input);
                               d_status := Some Scheduled |};
              ev_note := None |} ] |} in
  call (assertNoOverlapOrThrow (appointments state) appt);;
  let next :=
    {| version := version state + 1;
       updatedAt := at_;
       appointments := appointments state ++ [appt] |} in
  writeState next;;
  mret appt.

Definition rescheduleAppointment (id start end_ : string)
    (seededAt at_ : string) : Op Appointment :=
  state ← readState seededAt;
  current ← call (findAppointmentOrThrow (appointments state) id);
  call (assertOwnedOrThrow current clientId);;
  let nextAppt :=
    {| a_id := a_id current;
       a_clinicId := a_clinicId current;
       a_therapistId := a_therapistId current;
       a_patient := a_patient current;
       a_start := start;
       a_end := end_;
       a_type := a_type current;
       a_mode := a_mode current;
       a_status := a_status current;
       a_createdBy := a_createdBy current;
       a_updatedAt := at_;
       a_cancelledAt := a_cancelledAt current;
       a_cancelledBy := a_cancelledBy current;
       a_audit :=
         a_audit current ++
         [ {| ev_at := at_; ev_by := clientId; ev_type := Rescheduled;
              ev_from := Some {| d_start := Some (a_start current);
                                 d_end := Some (a_end current);
                                 d_status := None |};
              ev_to := Some {| d_start := Some start;
                               d_end := Some end_;
                               d_status := None |};
              ev_note := None |} ] |} in
  call (assertNoOverlapOrThrow (appointments state) nextAppt);;
  let next :=
    {| version := version state + 1;
       updatedAt := at_;
       appointments := replaceById id nextAppt (appointments state) |} in
  writeState next;;
  mret nextAppt.

Definition reassignAppointment (id therapistId : string)
    (seededAt at_ : string) : Op Appointment :=
  state ← readState seededAt;
  current ← call (findAppointmentOrThrow (appointments state) id);
  call (assertOwnedOrThrow current clientId);;
  let nextAppt :=
    {| a_id := a_id current;
       a_clinicId := a_clinicId current;
       a_therapistId := therapistId;
       a_patient := a_patient current;
       a_start := a_start current;
       a_end := a_end current;
       a_type := a_type current;
       a_mode := a_mode current;
       a_status := a_status current;
       a_createdBy := a_createdBy current;
       a_updatedAt := at_;
       a_cancelledAt := a_cancelledAt current;
       a_cancelledBy := a_cancelledBy current;
       a_audit :=
         a_audit current ++
         [ {| ev_at := at_; ev_by := clientId; ev_type := Rescheduled;
              ev_from := None; ev_to := None;
              ev_note := Some ("reassigned:" +:+ a_therapistId current
                               +:+ "->" +:+ therapistId) |} ] |} in
  call (assertNoOverlapOrThrow (appointments state) nextAppt);;
  let next :=
    {| version := version state + 1;
       updatedAt := at_;
       appointments := replaceById id nextAppt (appointments state) |} in
  writeState next;;
  mret nextAppt.

Definition updateAppointmentStatus (id : string) (status : AppointmentStatus)
    (seededAt at_ : string) : Op Appointment :=
  state ← readState seededAt;
  current ← call (findAppointmentOrThrow (appointments state) id);
  call (assertOwnedOrThrow current clientId);;
  let event :=
    {| ev_at := at_; ev_by := clientId; ev_type := StatusChange;
       ev_from := Some {| d_start := None; d_end := None;
                          d_status := Some (a_status current) |};
       ev_to := Some {| d_start := None; d_end := None;
                        d_status := Some status |};
       ev_note := None |} in
  let nextAppt :=
    {| a_id := a_id current;
       a_clinicId := a_clinicId current;
       a_therapistId := a_therapistId current;
       a_patient := a_patient current;
       a_start := a_start current;
       a_end := a_end current;
       a_type := a_type current;
       a_mode := a_mode current;
       a_status := status;
       a_createdBy := a_createdBy current;
       a_updatedAt := at_;
       a_cancelledAt := a_cancelledAt current;
       a_cancelledBy := a_cancelledBy current;
       a_audit := a_audit current ++ [event] |} in
  let next :=
    {| version := version state + 1;
       updatedAt := at_;
       appointments := replaceById id nextAppt (appointments state) |} in
  writeState next;;
  mret nextAppt.

Definition cancelAppointment (id : string) (seededAt at_ : string)
    : Op Appointment :=
  state ← readState seededAt;
  current ← call (findAppointmentOrThrow (appointments state) id);
  call (assertOwnedOrThrow current clientId);;
  let nextAppt :=
    {| a_id := a_id current;
       a_clinicId := a_clinicId current;
       a_therapistId := a_therapistId current;
       a_patient := a_patient current;
       a_start := a_start current;
       a_end := a_end current;
       a_type := a_type current;
       a_mode := a_mode current;
       a_status := a_status current;
       a_createdBy := a_createdBy current;
       a_updatedAt := at_;
       a_cancelledAt := Some at_;
       a_cancelledBy := Some clientId;
       a_audit :=
         a_audit current ++
         [ {| ev_at := at_; ev_by := clientId; ev_type := Cancelled;
              ev_from := None; ev_to := None; ev_note := None |} ] |} in
  let next :=
    {| version := version state + 1;
       updatedAt := at_;
       appointments := replaceById id nextAppt (appointments state) |} in
  writeState next;;
  mret nextAppt.

(** The mutating commands of the API, as data, so that a property can
    range over all of them. *)
Inductive Command :=
  | Create (input : CreateAppointmentInput) (newId : string)
  | Reschedule (id start end_ : string)
  | Reassign (id therapistId : string)
  | UpdateStatus (id : string) (status : AppointmentStatus)
  | Cancel (id : string).

Definition run (c : Command) (seededAt at_ : string) : Op Appointment :=
  match c with
  | Create input newId => createAppointment input newId seededAt at_
  | Reschedule id start end_ => rescheduleAppointment id start end_ seededAt at_
  | Reassign id therapistId => reassignAppointment id therapistId seededAt at_
  | UpdateStatus id status => updateAppointmentStatus id status seededAt at_
  | Cancel id => cancelAppointment id seededAt at_
  end.

End Store.

(** ** utils/schedule: date arithmetic, snapping, ranges *)

Definition MS_PER_DAY : Z := 24 * 60 * 60 * 1000.

(** [new Date(t)] for a number [t]: a time value beyond 8.64e15 ms on
    either side of the epoch, or [NaN], gives an Invalid Date. *)
Definition dateOfTime (t : num) : Date :=
  match t with
  | Some x => if Z.abs x <=? 8640000000000000 then At x else InvalidDate
  | None => InvalidDate
  end.

Definition num_sub (a b : num) : num :=
  match a, b with Some x, Some y => Some (x - y) | _, _ => None end.

Definition date_le (a b : Date) : bool := num_le (getTime a) (getTime b).
Definition date_ge (a b : Date) : bool := num_ge (getTime a) (getTime b).

Definition addDays (date : Date) (days : num) : Date :=
  dateOfTime (num_add (getTime date) (num_mul days (Some MS_PER_DAY))).

Definition addMinutes (date : Date) (minutes : num) : Date :=
  dateOfTime
    (num_add (getTime date) (num_mul (num_mul minutes (Some 60)) (Some 1000))).

(** [Math.round(a / b)] for integers [a] and [b], [b] not 0: the
    nearest integer, a tie going up. (The quotient is taken exactly;
    the program's operands are minutes and milliseconds, far below
    2^53.) *)
Definition roundDiv (a b : Z) : Z := (2 * a + b) / (2 * b).

(** [Math.ceil(a / b)] *)
Definition ceilDiv (a b : Z) : Z := - ((- a) / b).

Definition minutesDiff (start end_ : Date) : num :=
  match num_sub (getTime end_) (getTime start) with
  | Some d => Some (roundDiv d (60 * 1000))
  | None => None
  end.

Inductive SnapMode := Floor | Round | Ceil.

(** A slot size of 0 makes the ratio infinite or [NaN], and the
    product with 0 [NaN]. *)
Definition snapMinutes (minutesFromMidnightValue slotMinutes : num)
    (mode : SnapMode) : num :=
  match minutesFromMidnightValue, slotMinutes with
  | Some m, Some slot =>
      if slot =? 0 then None
      else
        let snapped :=
          match mode with
          | Floor => m / slot
          | Ceil => ceilDiv m slot
          | Round => roundDiv m slot
          end in
        Some (snapped * slot)
  | _, _ => None
  end.

Inductive ViewMode := DayView | WeekView.

(** The functions of utils/schedule that share a name with one of
    domain/schedulerRules, and those built on them, are kept in a
    module of their own. *)
Module Schedule.
Section Schedule.
Context `{Platform}.

Definition minutesSinceMidnight (date : Date) : num :=
  num_add (num_mul (getHours date) (Some 60)) (getMinutes date).

Definition minutesFromHHmm (value : string) : num :=
  match map toNumber (split ":" value) with
  | h :: m :: _ => num_add (num_mul h (Some 60)) m
  | _ => None
  end.

Definition withinWorkingWindow (workingHours : WorkingHours)
    (start end_ : Date) : bool :=
  let dow := getDay start in
  if negb (includes (wh_days workingHours) dow) then false
  else
    let startMinutes := minutesSinceMidnight start in
    let endMinutes := minutesSinceMidnight end_ in
    num_ge startMinutes (minutesFromHHmm (wh_start workingHours))
    && num_le endMinutes (minutesFromHHmm (wh_end workingHours)).

(** The time-away test of this module: every entry of the therapist
    is looked at, with the window on the entry's own date. *)
Definition hasTimeAwayConflict (therapistId : string) (start end_ : Date)
    (away : list TimeAway) : bool :=
  existsb (λ slot,
    if str_neq (ta_therapistId slot) therapistId then false
    else
      let day := ta_date slot in
      let startWindow := parseISO (day +:+ "T" +:+ ta_start slot +:+ ":00") in
      let endWindow := parseISO (day +:+ "T" +:+ ta_end slot +:+ ":00") in
      overlaps start end_ startWindow endWindow)
    away.

Definition isTherapistAvailable (therapist : Therapist)
    (startISO endISO : string) (currentAppointments : list Appointment)
    (away : list TimeAway) : bool :=
  let start := parseISO startISO in
  let end_ := parseISO endISO in
  if negb (withinWorkingWindow (t_workingHours therapist) start end_) then false
  else if hasTimeAwayConflict (t_id therapist) start end_ away then false
  else
    let hasOverlap :=
      existsb (λ appt,
        if truthy (a_cancelledAt appt) then false
        else str_eq (a_therapistId appt) (t_id therapist)
             && overlaps start end_ (parseISO (a_start appt))
                         (parseISO (a_end appt)))
        currentAppointments in
    negb hasOverlap.

(** The loop of [buildRange]; [fuel] bounds the number of rounds. *)
Fixpoint daysUpTo (fuel : nat) (cursor actualEnd : Date) : list Date :=
  match fuel with
  | O => []
  | S fuel' =>
      if date_le cursor actualEnd
      then cursor :: daysUpTo fuel' (addDays cursor (Some 1)) actualEnd
      else []
  end.

Definition buildRangeWith (fuel : nat) (startInput endInput : string)
    (view : ViewMode) : list Date :=
  let start := parseISO (startInput +:+ "T00:00:00") in
  let end_ := parseISO (endInput +:+ "T00:00:00") in
  let maxEnd := match view with WeekView => addDays start (Some 6)
                              | DayView => start end in
  let actualEnd := if date_lt end_ maxEnd then end_ else maxEnd in
  daysUpTo fuel start actualEnd.

(** The loop stops by its own test within seven rounds; eight leave
    one to spare. *)
Definition buildRange : string → string → ViewMode → list Date :=
  buildRangeWith 8.

Definition withinDateRange (iso start end_ : string) : bool :=
  let date := parseISO iso in
  let startDate := parseISO (start +:+ "T00:00:00") in
  let endDate := parseISO (end_ +:+ "T23:59:59") in
  date_ge date startDate && date_le date endDate.

End Schedule.
End Schedule.

(** ** domain/schedulerRules: durations *)

Section RulesMore.
Context `{Platform}.



End RulesMore.

(** [date.setHours(hours, minutes, 0, 0)] on a copy of [date], the one
    setter the program calls. *)
Class LocalSetters := {
  setHours : Date → num → num → Date;
}.

Section Snap.
Context `{Platform} `{LocalSetters}.

(** [Math.floor(x / 60)] and [x % 60] ([%] takes the sign of [x]). *)
Definition hoursOf (x : num) : num :=
  match x with Some v => Some (v / 60) | None => None end.
Definition minutesOf (x : num) : num :=
  match x with Some v => Some (Z.rem v 60) | None => None end.

Definition snapDateToSlot (date : Date) (slotMinutes : num) (mode : SnapMode)
    : Date :=
  let mins := num_add (num_mul (getHours date) (Some 60)) (getMinutes date) in
  let snapped := snapMinutes mins slotMinutes mode in
  setHours date (hoursOf snapped) (minutesOf snapped).

End Snap.

(** ** api/localSchedulerApi: the session id and the read path *)

(** [getOrCreateClientId] on what [sessionStorage] holds under the
    client key; [fresh] is what [randomId] returns if it is called. *)
Definition getOrCreateClientId (fresh : string) (session : option string)
    : option string * string :=
  match session with
  | Some existing =>
      if truthy (Some existing) then (session, existing)
      else (Some ("client_" +:+ fresh), "client_" +:+ fresh)
  | None => (Some ("client_" +:+ fresh), "client_" +:+ fresh)
  end.

Record SchedulerSnapshot := {
  snap_appointments : list Appointment;
  snap_locks : list SlotLock;
  snap_serverTime : string;
  snap_version : Z;
}.

Section Fetch.
Context `{Platform} (clientId : string).

(** [now] is the clock reading for [serverTime]. *)
Definition fetchSnapshot (rangeStart rangeEnd : string) (seededAt now : string)
    : Op SchedulerSnapshot :=
  state ← readState seededAt;
  let inRange :=
    List.filter (λ a, Schedule.withinDateRange (a_start a) rangeStart rangeEnd)
      (appointments state) in
  mret {| snap_appointments := inRange;
          snap_locks := buildLocks inRange clientId;
          snap_serverTime := now;
          snap_version := version state |}.

End Fetch.

(** ** App: eligibility of a therapist for a window *)

Section Eligibility.
Context `{Platform}.

(** [therapists], [appointments] and [timeAway] are what the component
    holds when the function is called. *)
Definition therapistEligible (therapists : list Therapist)
    (appointments : list Appointment) (timeAway : list TimeAway)
    (therapistId start end_ : string) (ignoreAppointmentId : option string)
    : bool :=
  match List.find (λ t, str_eq (t_id t) therapistId) therapists with
  | None => false
  | Some therapist =>
      let remaining :=
        List.filter (λ appt,
          str_eq (a_therapistId appt) therapistId
          && negb (bool_decide (Some (a_id appt) = ignoreAppointmentId)))
          appointments in
      Schedule.isTherapistAvailable therapist start end_ remaining timeAway
  end.

End Eligibility.

(** ** components/AvailabilityGrid: slots and segments *)

Inductive AvailabilityStatus := SlotAvailable | SlotBooked | SlotTimeOff | SlotOff.

Global Instance AvailabilityStatus_eq_dec : EqDecision AvailabilityStatus.
Proof. solve_decision. Defined.

(** What [resolveSlot] returns. *)
Record SlotView := {
  sv_status : AvailabilityStatus;
  sv_label : option string;
  sv_sublabel : option string;
}.

Record Segment := {
  seg_startMin : Z;
  seg_endMin : Z;
  seg_status : AvailabilityStatus;
  seg_label : option string;
  seg_sublabel : option string;
}.

(** [String(n)] for an integer or [NaN], and [s.padStart(2, '0')]. *)
Definition showNum (n : num) : string :=
  match n with Some z => pretty z | None => "NaN" end.

Definition padStart2 (s : string) : string :=
  match s with
  | EmptyString => "00"
  | String c EmptyString => String "0" (String c EmptyString)
  | _ => s
  end.

Section Grid.
Context `{Platform}.

Definition toMinutes (value : string) : num :=
  match map toNumber (split ":" value) with
  | h :: m :: _ => num_add (num_mul h (Some 60)) m
  | _ => None
  end.

Definition atDate (dateISO : string) (minutes : num) : Date :=
  let hh := hoursOf minutes in
  let mm := minutesOf minutes in
  parseISO (dateISO +:+ "T" +:+ padStart2 (showNum hh) +:+ ":"
            +:+ padStart2 (showNum mm) +:+ ":00").

Definition resolveSlot (therapist : Therapist) (dateISO : string)
    (startMin endMin : num) (appts : list Appointment) (away : list TimeAway)
    : SlotView :=
  let start := atDate dateISO startMin in
  let end_ := atDate dateISO endMin in
  if negb (includes (wh_days (t_workingHours therapist)) (getDay start))
  then {| sv_status := SlotOff; sv_label := None; sv_sublabel := None |}
  else
    let windowStart := toMinutes (wh_start (t_workingHours therapist)) in
    let windowEnd := toMinutes (wh_end (t_workingHours therapist)) in
    if num_lt startMin windowStart || num_gt endMin windowEnd
    then {| sv_status := SlotOff; sv_label := None; sv_sublabel := None |}
    else
      match
        List.find (λ slot,
          if str_neq (ta_therapistId slot) (t_id therapist)
             || str_neq (ta_date slot) dateISO then false
          else overlaps start end_
                 (atDate dateISO (toMinutes (ta_start slot)))
                 (atDate dateISO (toMinutes (ta_end slot))))
          away
      with
      | Some awayHit =>
          {| sv_status := SlotTimeOff; sv_label := Some "Time off";
             sv_sublabel := Some (ta_reason awayHit) |}
      | None =>
          match
            List.find (λ appt,
              if truthy (a_cancelledAt appt) then false
              else if str_neq (a_therapistId appt) (t_id therapist) then false
              else overlaps start end_ (parseISO (a_start appt))
                            (parseISO (a_end appt)))
              appts
          with
          | Some apptHit =>
              {| sv_status := SlotBooked;
                 sv_label := Some (match a_type apptHit with
                                   | Evaluation => "Eval"
                                   | Followup => "Follow-up"
                                   end);
                 sv_sublabel := Some (a_patient apptHit) |}
          | None =>
              {| sv_status := SlotAvailable; sv_label := Some "Available";
                 sv_sublabel := None |}
          end
      end.

(** One round of the loop of [buildSegments]: the slot at [cursor]
    lengthens the last segment when it continues it, and opens a new
    segment otherwise. *)
Definition pushSlot (segments : list Segment) (cursor stepMin : Z)
    (slot : SlotView) : list Segment :=
  match last segments with
  | Some prev =>
      if bool_decide (seg_status prev = sv_status slot)
         && bool_decide (seg_label prev = sv_label slot)
         && bool_decide (seg_sublabel prev = sv_sublabel slot)
         && (seg_endMin prev =? cursor)
      then
        removelast segments ++
        [ {| seg_startMin := seg_startMin prev;
             seg_endMin := seg_endMin prev + stepMin;
             seg_status := seg_status prev;
             seg_label := seg_label prev;
             seg_sublabel := seg_sublabel prev |} ]
      else
        segments ++
        [ {| seg_startMin := cursor; seg_endMin := cursor + stepMin;
             seg_status := sv_status slot; seg_label := sv_label slot;
             seg_sublabel := sv_sublabel slot |} ]
  | None =>
      segments ++
      [ {| seg_startMin := cursor; seg_endMin := cursor + stepMin;
           seg_status := sv_status slot; seg_label := sv_label slot;
           seg_sublabel := sv_sublabel slot |} ]
  end.

(** The loop itself, on whole numbers of minutes as the component
    passes them; it returns nothing when [fuel] rounds do not bring the
    cursor to the end of the range. *)
Fixpoint segmentsFrom (fuel : nat) (therapist : Therapist) (dateISO : string)
    (cursor rangeEndMin stepMin : Z) (appts : list Appointment)
    (away : list TimeAway) (segments : list Segment) : option (list Segment) :=
  if cursor <? rangeEndMin then
    match fuel with
    | O => None
    | S fuel' =>
        let slot := resolveSlot therapist dateISO (Some cursor)
                      (Some (cursor + stepMin)) appts away in
        segmentsFrom fuel' therapist dateISO (cursor + stepMin) rangeEndMin
          stepMin appts away (pushSlot segments cursor stepMin slot)
    end
  else Some segments.

Definition buildSegments (fuel : nat) (therapist : Therapist) (dateISO : string)
    (rangeStartMin rangeEndMin stepMin : Z) (appts : list Appointment)
    (away : list TimeAway) : option (list Segment) :=
  segmentsFrom fuel therapist dateISO rangeStartMin rangeEndMin stepMin
    appts away [].

End Grid.

(** ** Concrete platforms: fixed-offset time zones

    Date-time strings of the two forms the program itself produces are
    read: [YYYY-MM-DDTHH:mm:ss] (as [toISO] and the time-away windows),
    which is local time, and [YYYY-MM-DDTHH:mm:ss.sssZ] (as
    [toISOString]), which is UTC; every other string is taken to be an
    Invalid Date. The zone is [offset] minutes east of UTC all year.
    [Number] reads the empty string as 0 and a string of decimal digits
    as its value, and is [NaN] elsewhere. *)

Definition digit (c : ascii) : option Z :=
  let n := Z.of_N (N_of_ascii c) in
  if (48 <=? n) && (n <=? 57) then Some (n - 48) else None.

Fixpoint takeDigits (n : nat) (acc : Z) (s : string) : option (Z * string) :=
  match n with
  | O => Some (acc, s)
  | S n' =>
      match s with
      | String c rest => d ← digit c; takeDigits n' (10 * acc + d) rest
      | EmptyString => None
      end
  end.

Definition expect (c : ascii) (s : string) : option string :=
  match s with
  | String c' rest => if Ascii.eqb c c' then Some rest else None
  | EmptyString => None
  end.

Definition daysFromCivil (y m d : Z) : Z :=
  let y' := if m <=? 2 then y - 1 else y in
  let era := y' / 400 in
  let yoe := y' - era * 400 in
  let doy := (153 * (if 2 <? m then m - 3 else m + 9) + 2) / 5 + d - 1 in
  let doe := yoe * 365 + yoe / 4 - yoe / 100 + doy in
  era * 146097 + doe - 719468.

Definition civilFromDays (z : Z) : Z * Z * Z :=
  let z' := z + 719468 in
  let era := z' / 146097 in
  let doe := z' - era * 146097 in
  let yoe := (doe - doe / 1460 + doe / 36524 - doe / 146096) / 365 in
  let doy := doe - (365 * yoe + yoe / 4 - yoe / 100) in
  let mp := (5 * doy + 2) / 153 in
  let d := doy - (153 * mp + 2) / 5 + 1 in
  let m := if mp <? 10 then mp + 3 else mp - 9 in
  ((if m <=? 2 then yoe + era * 400 + 1 else yoe + era * 400), m, d).

Definition isLeap (y : Z) : bool :=
  ((y mod 4 =? 0) && negb (y mod 100 =? 0)) || (y mod 400 =? 0).

Definition daysInMonth (y m : Z) : Z :=
  if m =? 2 then (if isLeap y then 29 else 28)
  else if (m =? 4) || (m =? 6) || (m =? 9) || (m =? 11) then 30
  else 31.

(** What follows the seconds: milliseconds, and whether a [Z] closes
    the string. *)
Definition isoSuffix (s : string) : option (Z * bool) :=
  match s with
  | EmptyString => Some (0, false)
  | String "Z" EmptyString => Some (0, true)
  | String "." rest =>
      '(ms, rest') ← takeDigits 3 0 rest;
      match rest' with
      | EmptyString => Some (ms, false)
      | String "Z" EmptyString => Some (ms, true)
      | _ => None
      end
  | _ => None
  end.

Definition isoParse (offset : Z) (value : string) : option Z :=
  '(y, s) ← takeDigits 4 0 value;
  s ← expect "-" s;
  '(mo, s) ← takeDigits 2 0 s;
  s ← expect "-" s;
  '(d, s) ← takeDigits 2 0 s;
  s ← expect "T" s;
  '(h, s) ← takeDigits 2 0 s;
  s ← expect ":" s;
  '(mi, s) ← takeDigits 2 0 s;
  s ← expect ":" s;
  '(sec, s) ← takeDigits 2 0 s;
  '(ms, zulu) ← isoSuffix s;
  if (1 <=? mo) && (mo <=? 12) && (1 <=? d) && (d <=? daysInMonth y mo)
     && (h <=? 23) && (mi <=? 59) && (sec <=? 59)
  then
    let fields := ((daysFromCivil y mo d * 24 + h) * 60 + mi) * 60000
                  + sec * 1000 + ms in
    Some (if zulu : bool then fields else fields - offset * 60000)
  else None.

Definition zoneNewDate (offset : Z) (value : string) : Date :=
  match isoParse offset value with Some ms => At ms | None => InvalidDate end.

Definition utcNewDate : string → Date := zoneNewDate 0.

Definition digitChar (d : Z) : string :=
  String (ascii_of_N (Z.to_N (48 + d mod 10))) EmptyString.

Definition pad2 (n : Z) : string := digitChar (n / 10) +:+ digitChar n.

Definition pad4 (n : Z) : string := pad2 (n / 100) +:+ pad2 n.

(** The date part of [toISOString] for the years 0 to 9999. *)
Definition utcDatePart (ms : Z) : string :=
  let '(y, m, d) := civilFromDays (ms / 86400000) in
  pad4 y +:+ "-" +:+ pad2 m +:+ "-" +:+ pad2 d.

Fixpoint allDigits (acc : Z) (s : string) : num :=
  match s with
  | EmptyString => Some acc
  | String c rest => d ← digit c; allDigits (10 * acc + d) rest
  end.

Definition zone (offset : Z) : Platform := {|
  newDate := zoneNewDate offset;
  localDay := λ ms, ((ms + offset * 60000) / 86400000 + 4) mod 7;
  localHours := λ ms, ((ms + offset * 60000) / 3600000) mod 24;
  localMinutes := λ ms, ((ms + offset * 60000) / 60000) mod 60;
  isoDatePart := utcDatePart;
  toNumber := allDigits 0;
|}.

Global Instance utc : Platform := zone 0.

(** Eight hours west of UTC. *)
Definition pacific : Platform := zone (-480).

(** [setHours] in a zone [offset] minutes east of UTC: the local day
    of the date, at the given time of day. *)
Definition zoneSetHours (offset : Z) (date : Date) (hours minutes : num) : Date :=
  match date, hours, minutes with
  | At t, Some h, Some m =>
      let dayStart := (t + offset * 60000) / MS_PER_DAY * MS_PER_DAY in
      dateOfTime (Some (dayStart + h * 3600000 + m * 60000 - offset * 60000))
  | _, _, _ => InvalidDate
  end.

Definition zoneSetters (offset : Z) : LocalSetters :=
  {| setHours := zoneSetHours offset |}.

(** ** The properties of the design document, as predicates *)

(** The record a command is aimed at, and the kind of the audit event
    it writes. *)
Definition targetId (c : Command) : option string :=
  match c with
  | Create _ _ => None
  | Reschedule id _ _ | Reassign id _ | UpdateStatus id _ | Cancel id => Some id
  end.

Definition eventKind (c : Command) : AuditKind :=
  match c with
  | Create _ _ => Created
  | Reschedule _ _ _ | Reassign _ _ => Rescheduled
  | UpdateStatus _ _ => StatusChange
  | Cancel _ => Cancelled
  end.

(** The commands whose commit re-validates the overlap invariant. *)
Definition revalidates (c : Command) : bool :=
  match c with
  | Create _ _ | Reschedule _ _ _ | Reassign _ _ => true
  | UpdateStatus _ _ | Cancel _ => false
  end.

(** Store well-formedness: records are identified by their id. *)
Definition ids_unique (apps : list Appointment) : Prop :=
  NoDup (map a_id apps).

(** Every audit trail opens with a [created] event. *)
Definition trail_opens_created (a : Appointment) : Prop :=
  ev_type <$> head (a_audit a) = Some Created.

Definition trails_open_created (apps : list Appointment) : Prop :=
  Forall trail_opens_created apps.

Section Properties.
Context `{Platform}.

(** The half-open intervals of two records intersect. *)
Definition overlapping (x y : Appointment) : bool :=
  overlaps (parseISO (a_start x)) (parseISO (a_end x))
           (parseISO (a_start y)) (parseISO (a_end y)).

(** The global no-overlap invariant: two different non-cancelled
    records of one resource never intersect. *)
Definition no_overlap_invariant (apps : list Appointment) : Prop :=
  ∀ x y, x ∈ apps → y ∈ apps → a_id x ≠ a_id y →
    isCancelled x = false → isCancelled y = false →
    a_therapistId x = a_therapistId y →
    overlapping x y = false.

(** A window on a resource runs into a non-cancelled record other than
    the one with id [self]. *)
Definition clashes (apps : list Appointment) (self therapistId start end_ : string)
    : Prop :=
  ∃ a, a ∈ apps ∧ isCancelled a = false ∧ a_id a ≠ self ∧
       a_therapistId a = therapistId ∧
       overlaps (parseISO start) (parseISO end_)
                (parseISO (a_start a)) (parseISO (a_end a)) = true.

(** The five conditions of window eligibility. *)
Definition inWorkingHours (t : Therapist) (start end_ : Date) : Prop :=
  ∃ s e from to,
    start = At s ∧ end_ = At e ∧
    Some (localDay s) ∈ wh_days (t_workingHours t) ∧
    toMinHHmm (wh_start (t_workingHours t)) = Some from ∧
    toMinHHmm (wh_end (t_workingHours t)) = Some to ∧
    from ≤ localHours s * 60 + localMinutes s ∧
    localHours e * 60 + localMinutes e ≤ to.

Definition timeOffHit (therapistId : string) (start end_ : Date)
    (away : list TimeAway) : Prop :=
  ∃ slot s, slot ∈ away ∧ start = At s ∧
    ta_therapistId slot = therapistId ∧
    ta_date slot = isoDatePart s ∧
    overlaps start end_
      (parseISO (ta_date slot +:+ "T" +:+ ta_start slot +:+ ":00"))
      (parseISO (ta_date slot +:+ "T" +:+ ta_end slot +:+ ":00")) = true.

Definition lockHit (therapistId : string) (start end_ : Date)
    (locks : list SlotLock) : Prop :=
  ∃ lock, lock ∈ locks ∧ l_therapistId lock = therapistId ∧
    overlaps start end_ (parseISO (l_start lock)) (parseISO (l_end lock)) = true.

(** An absent or empty [ignoreAppointmentId] ignores nothing. *)
Definition ignored (ignoreAppointmentId : option string) (a : Appointment) : Prop :=
  ∃ i, ignoreAppointmentId = Some i ∧ i ≠ EmptyString ∧ a_id a = i.

Definition appointmentHit (appointments : list Appointment)
    (therapistId : string) (start end_ : Date)
    (ignoreAppointmentId : option string) : Prop :=
  ∃ a, a ∈ appointments ∧ isCancelled a = false ∧
    a_therapistId a = therapistId ∧ ¬ ignored ignoreAppointmentId a ∧
    overlaps start end_ (parseISO (a_start a)) (parseISO (a_end a)) = true.

(** A record whose start and end are valid instants, the start before
    the end. *)
Definition wellTimed (a : Appointment) : Prop :=
  ∃ s e, parseISO (a_start a) = At s ∧ parseISO (a_end a) = At e ∧ s < e.

(** [x] starts no later than [y]. *)
Definition startsBefore (x y : Appointment) : Prop :=
  ∃ sx sy, parseISO (a_start x) = At sx ∧ parseISO (a_start y) = At sy
           ∧ sx ≤ sy.

End Properties.

(** The group of a therapist in the detector: the non-cancelled
    records that name the therapist. *)
Definition inGroup (k : string) (a : Appointment) : Prop :=
  isCancelled a = false ∧ a_therapistId a = k.

Global Instance inGroup_dec k a : Decision (inGroup k a).
Proof. unfold inGroup. apply _. Defined.

(** The appointments a session must see as locked: not cancelled and
    created by somebody else. *)
Definition lockedFor (session : string) (a : Appointment) : Prop :=
  isCancelled a = false ∧ a_createdBy a ≠ session.

Global Instance lockedFor_dec session a : Decision (lockedFor session a).
Proof. unfold lockedFor. apply _. Defined.

(** A lock carries the resource, window and owner of its appointment. *)
Definition lockCarries (a : Appointment) (l : SlotLock) : Prop :=
  l_therapistId l = a_therapistId a ∧ l_start l = a_start a ∧
  l_end l = a_end a ∧ l_lockedBy l = a_createdBy a.

(** ** Concrete inputs for the examples *)

Definition booking (id therapist owner start end_ : string)
    (status : AppointmentStatus) : Appointment :=
  {| a_id := id; a_clinicId := "c1"; a_therapistId := therapist;
     a_patient := "P. Example";
     a_start := start; a_end := end_;
     a_type := Followup; a_mode := InClinic; a_status := status;
     a_createdBy := owner; a_updatedAt := seededUpdatedAt;
     a_cancelledAt := None; a_cancelledBy := None;
     a_audit :=
       [ {| ev_at := seededUpdatedAt; ev_by := owner; ev_type := Created;
            ev_from := None;
            ev_to := Some {| d_start := Some start; d_end := Some end_;
                             d_status := Some Scheduled |};
            ev_note := None |} ] |}.

Definition stateOf (apps : list Appointment) : StoredSchedulerState :=
  {| version := 1; updatedAt := seededUpdatedAt; appointments := apps |}.

Definition sessionA : string := "client_A".
Definition sessionB : string := "client_B".

(** Session A's 9:00-10:00 on therapist t1, session B's 10:00-11:00 on
    the same therapist, and a completed visit of session A on t2. *)
Definition morning : Appointment :=
  booking "a1" "t1" sessionA "2025-01-13T09:00:00" "2025-01-13T10:00:00" Scheduled.
Definition midday : Appointment :=
  booking "b1" "t1" sessionB "2025-01-13T10:00:00" "2025-01-13T11:00:00" Scheduled.
Definition finished : Appointment :=
  booking "a2" "t2" sessionA "2025-01-14T11:00:00" "2025-01-14T12:00:00" Completed.

Definition shared : Storage := Item (stateOf [morning; midday; finished]).

(** A long booking with two short ones inside it, all on t1. *)
Definition long : Appointment :=
  booking "n1" "t1" sessionA "2025-01-13T09:00:00" "2025-01-13T12:00:00" Scheduled.
Definition early : Appointment :=
  booking "n2" "t1" sessionA "2025-01-13T09:30:00" "2025-01-13T10:00:00" Scheduled.
Definition late : Appointment :=
  booking "n3" "t1" sessionA "2025-01-13T10:30:00" "2025-01-13T11:00:00" Scheduled.

(** Therapist t3 is away on 15 January from 16:00 to 18:00. *)
Definition courseContext : AvailabilityContext :=
  {| therapists := mockTherapists;
     timeAway :=
       [ {| ta_id := "away9"; ta_therapistId := "t3"; ta_date := "2025-01-15";
            ta_start := "16:00"; ta_end := "18:00"; ta_reason := "Course" |} ] |}.

(** A create request for a therapist id that no therapist has. *)
Definition strayRequest : CreateAppointmentInput :=
  {| in_clinicId := "c1"; in_therapistId := "t9"; in_patient := "P. Example";
     in_start := "2025-01-13T09:00:00"; in_end := "2025-01-13T10:00:00";
     in_type := Evaluation; in_mode := InClinic |}.

(** Session B asks for 9:30-10:30 on t1. *)
Definition lateRequest : CreateAppointmentInput :=
  {| in_clinicId := "c1"; in_therapistId := "t1"; in_patient := "P. Example";
     in_start := "2025-01-13T09:30:00"; in_end := "2025-01-13T10:30:00";
     in_type := Evaluation; in_mode := InClinic |}.




Definition clockSeed : string := "2025-01-10T08:00:00.000Z".
Definition clockNow : string := "2025-01-10T08:00:01.000Z".

(** ** What the availability grid has to show, as predicates *)

(** Segments that lie end to end from [from] to [to], none empty. *)
Fixpoint tiles (from to : Z) (segs : list Segment) : Prop :=
  match segs with
  | [] => from = to
  | seg :: rest =>
      seg_startMin seg = from ∧ from < seg_endMin seg
      ∧ tiles (seg_endMin seg) to rest
  end.

(** A segment looks like a slot, or like another segment: same status,
    label and sublabel. *)
Definition looksLike (seg : Segment) (slot : SlotView) : Prop :=
  seg_status seg = sv_status slot ∧ seg_label seg = sv_label slot
  ∧ seg_sublabel seg = sv_sublabel slot.

Definition sameLook (a b : Segment) : Prop :=
  seg_status a = seg_status b ∧ seg_label a = seg_label b
  ∧ seg_sublabel a = seg_sublabel b.

(** No two neighbours look the same. *)
Fixpoint neighboursDiffer (segs : list Segment) : Prop :=
  match segs with
  | a :: rest =>
      match rest with
      | b :: _ => ¬ sameLook a b
      | [] => True
      end ∧ neighboursDiffer rest
  | [] => True
  end.

Section GridSpec.
Context `{Platform}.

(** The slot that starts at [cursor] lies within a segment that looks
    like what [resolveSlot] says of it. *)
Definition shows (therapist : Therapist) (dateISO : string) (stepMin : Z)
    (appts : list Appointment) (away : list TimeAway) (segs : list Segment)
    (cursor : Z) : Prop :=
  ∃ seg, seg ∈ segs ∧ seg_startMin seg ≤ cursor
         ∧ cursor + stepMin ≤ seg_endMin seg
         ∧ looksLike seg (resolveSlot therapist dateISO (Some cursor)
                            (Some (cursor + stepMin)) appts away).

(** The slot is outside the therapist's working hours: the weekday is
    not a working day, or the slot starts before or ends after the
    daily window. *)
Definition offHours (therapist : Therapist) (dateISO : string)
    (startMin endMin : num) : Prop :=
  getDay (atDate dateISO startMin) ∉ wh_days (t_workingHours therapist)
  ∨ num_lt startMin (toMinutes (wh_start (t_workingHours therapist))) = true
  ∨ num_gt endMin (toMinutes (wh_end (t_workingHours therapist))) = true.

(** A time-away entry of the therapist, dated on the day, that the slot
    runs into; a non-cancelled appointment of the therapist that the
    slot runs into. *)
Definition awayOn (therapist : Therapist) (dateISO : string)
    (startMin endMin : num) (entry : TimeAway) : Prop :=
  ta_therapistId entry = t_id therapist ∧ ta_date entry = dateISO
  ∧ overlaps (atDate dateISO startMin) (atDate dateISO endMin)
      (atDate dateISO (toMinutes (ta_start entry)))
      (atDate dateISO (toMinutes (ta_end entry))) = true.

Definition bookedOn (therapist : Therapist) (dateISO : string)
    (startMin endMin : num) (a : Appointment) : Prop :=
  isCancelled a = false ∧ a_therapistId a = t_id therapist
  ∧ overlaps (atDate dateISO startMin) (atDate dateISO endMin)
      (parseISO (a_start a)) (parseISO (a_end a)) = true.

End GridSpec.

(** ** How far along a visit is *)

(** The stage of a status in the course of a visit; the two ways a
    visit can end share the last stage. *)
Definition stage (s : AppointmentStatus) : Z :=
  match s with
  | Scheduled => 0
  | CheckIn => 1
  | InProgress => 2
  | Completed => 3
  | Incomplete => 3
  end.

(** ** More concrete inputs *)

(** Session B asks for 11:00-12:00 on t1, which nobody holds. *)
Definition freeRequest : CreateAppointmentInput :=
  {| in_clinicId := "c1"; in_therapistId := "t1"; in_patient := "P. Example";
     in_start := "2025-01-13T11:00:00"; in_end := "2025-01-13T12:00:00";
     in_type := Evaluation; in_mode := InClinic |}.

(** Session A's 9:00-10:00 after session A cancelled it. *)
Definition withdrawnMorning : Appointment :=
  {| a_id := "a1"; a_clinicId := "c1"; a_therapistId := "t1";
     a_patient := "P. Example";
     a_start := "2025-01-13T09:00:00"; a_end := "2025-01-13T10:00:00";
     a_type := Followup; a_mode := InClinic; a_status := Scheduled;
     a_createdBy := sessionA; a_updatedAt := clockNow;
     a_cancelledAt := Some clockNow; a_cancelledBy := Some sessionA;
     a_audit :=
       [ {| ev_at := seededUpdatedAt; ev_by := sessionA; ev_type := Created;
            ev_from := None;
            ev_to := Some {| d_start := Some "2025-01-13T09:00:00";
                             d_end := Some "2025-01-13T10:00:00";
                             d_status := Some Scheduled |};
            ev_note := None |};
         {| ev_at := clockNow; ev_by := sessionA; ev_type := Cancelled;
            ev_from := None; ev_to := None; ev_note := None |} ] |}.

Definition withdrawn : Storage := Item (stateOf [withdrawnMorning; midday]).

(** Therapists t1 and t4 of the seed data. *)
Definition alex : Therapist :=
  mockTherapist "t1" "Alex Morgan" PT "c1" "08:00" "16:00".
Definition marcus : Therapist :=
  mockTherapist "t4" "Marcus Lee" Speech "c1" "08:00" "15:00".

(** * Properties *)

(** ** Interval arithmetic *)

Lemma num_lt_irrefl (a : num) : num_lt a a = false.
Proof. destruct a as [x|]; simpl; [apply Z.ltb_irrefl | done]. Qed.

Lemma overlaps_sym (a b c d : Date) : overlaps a b c d = overlaps c d a b.
Proof. unfold overlaps, date_gt, date_lt, num_gt. apply andb_comm. Qed.

Lemma overlaps_invalid_start (b c d : Date) : overlaps InvalidDate b c d = false.
Proof. done. Qed.

(** C6. [overlaps] is the half-open test: on instants it holds exactly
    when [startA < endB] and [endA > startB]; two intervals that only
    touch (the end of the first is the start of the second) never
    overlap, as 9:00-10:00 against 10:00-11:00. *)
Theorem overlaps_half_open :
  (∀ startA endA startB endB : Z,
     overlaps (At startA) (At endA) (At startB) (At endB) = true
     ↔ startA < endB ∧ endA > startB)
  ∧ (∀ startA t endB : Date, overlaps startA t t endB = false)
  ∧ overlaps (utcNewDate "2025-01-13T09:00:00") (utcNewDate "2025-01-13T10:00:00")
             (utcNewDate "2025-01-13T10:00:00") (utcNewDate "2025-01-13T11:00:00")
    = false.
Proof.
  split; [|split].
  - intros sA eA sB eB. unfold overlaps, date_gt, date_lt, num_gt. simpl.
    rewrite andb_true_iff, !Z.ltb_lt. lia.
  - intros a t b. unfold overlaps, date_gt, num_gt.
    rewrite num_lt_irrefl. apply andb_false_r.
  - vm_compute. reflexivity.
Qed.

(** ** Lock derivation *)

Lemma locked_filter (appointments : list Appointment) (session : string) :
  List.filter (λ a, str_neq (a_createdBy a) session)
    (List.filter (λ a, negb (truthy (a_cancelledAt a))) appointments)
  = filter (lockedFor session) appointments.
Proof.
  induction appointments as [|a l IH]; [done|].
  cbn [List.filter]. rewrite filter_cons.
  destruct (decide (lockedFor session a)) as [[Hc Ho]|Hn].
  - unfold isCancelled in Hc. rewrite Hc. cbn [negb List.filter].
    unfold str_neq at 1. rewrite bool_decide_false by done.
    cbn [negb]. by rewrite IH.
  - destruct (truthy (a_cancelledAt a)) eqn:Hc; cbn [negb List.filter]; [done|].
    unfold str_neq at 1. case_bool_decide as Hs; cbn [negb]; [done|].
    destruct Hn. by split.
Qed.

(** C8. For a session, [getLocksForRange] (and [buildLocks], which is
    the same function) gives, in order, exactly one lock for each
    appointment that is not cancelled and was created by another
    session, carrying its resource, start, end and owner; so no lock
    stems from a cancelled appointment or from one of the session's
    own, and no lock is owned by the session. *)
Theorem locks_for_session (appointments : list Appointment) (session : string) :
  Forall2 lockCarries (filter (lockedFor session) appointments)
          (getLocksForRange appointments session)
  ∧ buildLocks appointments session = getLocksForRange appointments session
  ∧ (∀ l, l ∈ getLocksForRange appointments session →
       l_lockedBy l ≠ session
       ∧ ∃ a, a ∈ appointments ∧ isCancelled a = false ∧
              a_createdBy a ≠ session ∧ lockCarries a l).
Proof.
  unfold getLocksForRange, buildLocks. rewrite locked_filter.
  split; [|split; [done|]].
  - apply Forall2_fmap_r, Forall_Forall2_diag, Forall_forall.
    intros a _. by unfold lockCarries.
  - intros l [a [-> [[Hc Ho] Ha]%list_elem_of_filter]]%list_elem_of_fmap.
    split; [done|]. exists a. by unfold lockCarries.
Qed.

(** ** The store *)

(** Unfolding a command down to its guards. *)
Ltac open_command :=
  unfold run, createAppointment, rescheduleAppointment, reassignAppointment,
    updateAppointmentStatus, cancelAppointment;
  unfold mbind, op_bind, call, writeState, mret, op_ret.

Ltac guards state current :=
  unfold findAppointmentOrThrow, assertOwnedOrThrow, str_neq;
  destruct (List.find _ (appointments state)) as [current|] eqn:Hfind;
  [ destruct (bool_decide (a_createdBy current = _)) eqn:Hown; cbn [negb];
    [ destruct (truthy (a_cancelledAt current)) eqn:Hcan | ] | ].

Ltac overlap_guard :=
  unfold assertNoOverlapOrThrow;
  match goal with
  | |- context [existsb ?f ?l] => destruct (existsb f l) eqn:Hov
  | H : context [existsb ?f ?l] |- _ => destruct (existsb f l) eqn:Hov
  end.

Section StoreFacts.
Context `{Platform} (clientId : string).

Lemma readState_loads (seededAt : string) (s : Storage) :
  ∃ state, readState seededAt s = (Item state, Return state)
           ∧ (∀ st, s = Item st → state = st).
Proof.
  destruct s as [|raw|st]; cbn.
  - eexists. split; [done|]. intros ? [=].
  - eexists. split; [done|]. intros ? [=].
  - exists st. split; [done|]. by intros ? [= ->].
Qed.

Lemma find_by_id (apps : list Appointment) (id : string) (r : Appointment) :
  List.find (λ a, str_eq (a_id a) id) apps = Some r → r ∈ apps ∧ a_id r = id.
Proof.
  intros [Hin Heq]%find_some. split; [by apply list_elem_of_In|].
  unfold str_eq in Heq. by apply bool_decide_eq_true in Heq.
Qed.

Lemma find_by_id_none (apps : list Appointment) (id : string) :
  List.find (λ a, str_eq (a_id a) id) apps = None ↔ ∀ a, a ∈ apps → a_id a ≠ id.
Proof.
  split.
  - intros Hn a Ha%list_elem_of_In Hid.
    pose proof (find_none _ _ Hn a Ha) as Hf. cbn in Hf.
    unfold str_eq in Hf. by apply bool_decide_eq_false in Hf.
  - intros Hall. destruct (List.find _ apps) as [r|] eqn:Hf; [|done].
    apply find_by_id in Hf as [Hr Hid]. by destruct (Hall r Hr).
Qed.

Lemma ids_unique_eq (apps : list Appointment) (x y : Appointment) :
  ids_unique apps → x ∈ apps → y ∈ apps → a_id x = a_id y → x = y.
Proof.
  unfold ids_unique. induction apps as [|a l IH]; cbn.
  - by intros _ ?%elem_of_nil.
  - intros [Hfresh Hnd]%NoDup_cons Hx Hy Hid.
    apply elem_of_cons in Hx as [->|Hx], Hy as [->|Hy]; auto.
    + destruct Hfresh. rewrite Hid. change (a_id y ∈ a_id <$> l).
      by apply list_elem_of_fmap_2.
    + destruct Hfresh. rewrite <- Hid. change (a_id x ∈ a_id <$> l).
      by apply list_elem_of_fmap_2.
Qed.

(** C2 (as amended). A command that fails writes nothing of its own:
    the storage it leaves is the one its loading step produced, holding
    exactly the loaded state. A storage that already held a state is
    left as it was (version, [updatedAt], every record and trail); one
    that held no readable state holds the freshly seeded state. *)
Theorem failed_command_changes_nothing (c : Command) (seededAt at_ : string)
    (s s' : Storage) (e : Exception) :
  run clientId c seededAt at_ s = (s', Throw e) →
  (∃ state, readState seededAt s = (s', Return state) ∧ s' = Item state)
  ∧ (∀ st, s = Item st → s' = s).
Proof.
  destruct (readState_loads seededAt s) as (state & Hread & Hsame).
  intros Hrun.
  assert (s' = Item state) as ->.
  { revert Hrun. destruct c; open_command; rewrite Hread.
    - overlap_guard; by intros [= <-].
    - guards state current; try overlap_guard; by intros [= <-].
    - guards state current; try overlap_guard; by intros [= <-].
    - guards state current; by intros [= <-].
    - guards state current; by intros [= <-]. }
  split; [by exists state|].
  intros st ->. by rewrite (Hsame st eq_refl).
Qed.

Lemma find_replaceById (apps : list Appointment) (id : string)
    (current next : Appointment) :
  List.find (λ a, str_eq (a_id a) id) apps = Some current →
  a_id next = id →
  List.find (λ a, str_eq (a_id a) id) (replaceById id next apps) = Some next.
Proof.
  intros Hfind Hid. induction apps as [|a l IH]; [done|].
  cbn in *. destruct (str_eq (a_id a) id) eqn:Ha.
  - unfold str_eq at 1. by rewrite Hid, bool_decide_true.
  - rewrite Ha. auto.
Qed.

Lemma assertNoOverlap_passes (apps : list Appointment) (cand : Appointment) :
  assertNoOverlapOrThrow apps cand = Return tt
  ↔ ¬ clashes apps (a_id cand) (a_therapistId cand) (a_start cand) (a_end cand).
Proof.
  unfold assertNoOverlapOrThrow, clashes, isCancelled.
  destruct (existsb _ apps) eqn:Hov.
  - split; [done|]. intros []. apply existsb_exists in Hov as (a & Ha & Hov).
    exists a. apply list_elem_of_In in Ha.
    destruct (truthy (a_cancelledAt a)); [done|].
    unfold str_eq, str_neq in Hov.
    case_bool_decide; [done|]. case_bool_decide; [|done]. done.
  - split; [|done]. intros _ (a & Ha%list_elem_of_In & Hc & Hid & Ht & Ho).
    apply not_true_iff_false in Hov. apply Hov, existsb_exists.
    exists a. split; [done|]. rewrite Hc. unfold str_eq, str_neq.
    rewrite bool_decide_false by done. by rewrite bool_decide_true.
Qed.

Lemma assertNoOverlap_throws (apps : list Appointment) (cand : Appointment) :
  assertNoOverlapOrThrow apps cand
  = Throw (Error "Overlapping booking for this resource") →
  clashes apps (a_id cand) (a_therapistId cand) (a_start cand) (a_end cand).
Proof.
  unfold assertNoOverlapOrThrow, clashes, isCancelled.
  destruct (existsb _ apps) eqn:Hov; [intros _|done].
  apply existsb_exists in Hov as (a & Ha & Hov).
  exists a. apply list_elem_of_In in Ha.
  destruct (truthy (a_cancelledAt a)); [done|].
  unfold str_eq, str_neq in Hov.
  case_bool_decide; [done|]. case_bool_decide; [|done]. done.
Qed.

Lemma assertNoOverlap_outcome (apps : list Appointment) (cand : Appointment) :
  assertNoOverlapOrThrow apps cand = Return tt
  ∨ assertNoOverlapOrThrow apps cand
    = Throw (Error "Overlapping booking for this resource").
Proof. unfold assertNoOverlapOrThrow. destruct (existsb _ apps); auto. Qed.

(** What a successful command on a record has done. *)
Lemma record_success (c : Command) (id seededAt at_ : string)
    (s s' : Storage) (appt : Appointment) :
  targetId c = Some id →
  run clientId c seededAt at_ s = (s', Return appt) →
  ∃ state current ev,
    readState seededAt s = (Item state, Return state)
    ∧ List.find (λ a, str_eq (a_id a) id) (appointments state) = Some current
    ∧ a_createdBy current = clientId
    ∧ isCancelled current = false
    ∧ s' = Item {| version := version state + 1; updatedAt := at_;
                   appointments := replaceById id appt (appointments state) |}
    ∧ a_id appt = id
    ∧ a_createdBy appt = clientId
    ∧ a_audit appt = a_audit current ++ [ev]
    ∧ ev_type ev = eventKind c ∧ ev_at ev = at_ ∧ ev_by ev = clientId
    ∧ a_cancelledAt appt
      = (if c is Cancel _ then Some at_ else a_cancelledAt current)
    ∧ (revalidates c = true →
       assertNoOverlapOrThrow (appointments state) appt = Return tt).
Proof.
  destruct (readState_loads seededAt s) as (state & Hread & _).
  intros Hid Hrun. exists state. revert Hrun.
  destruct c; try done; injection Hid as ->; open_command; rewrite Hread;
    guards state current; try done.
  - destruct (assertNoOverlapOrThrow _ _) eqn:Hov; [done|]. destruct a.
    intros [= <- <-]. pose proof (find_by_id _ _ _ Hfind) as [Hin Hcur].
    apply bool_decide_eq_true in Hown.
    eexists current, _. cbn. by repeat split.
  - destruct (assertNoOverlapOrThrow _ _) eqn:Hov; [done|]. destruct a.
    intros [= <- <-]. pose proof (find_by_id _ _ _ Hfind) as [Hin Hcur].
    apply bool_decide_eq_true in Hown.
    eexists current, _. cbn. by repeat split.
  - intros [= <- <-]. pose proof (find_by_id _ _ _ Hfind) as [Hin Hcur].
    apply bool_decide_eq_true in Hown.
    eexists current, _. cbn. by repeat split.
  - intros [= <- <-]. pose proof (find_by_id _ _ _ Hfind) as [Hin Hcur].
    apply bool_decide_eq_true in Hown.
    eexists current, _. cbn. by repeat split.
Qed.

(** What a successful create has done. *)
Lemma create_success (input : CreateAppointmentInput)
    (newId seededAt at_ : string) (s s' : Storage) (appt : Appointment) :
  run clientId (Create input newId) seededAt at_ s = (s', Return appt) →
  ∃ state ev,
    readState seededAt s = (Item state, Return state)
    ∧ s' = Item {| version := version state + 1; updatedAt := at_;
                   appointments := appointments state ++ [appt] |}
    ∧ a_id appt = newId
    ∧ a_therapistId appt = in_therapistId input
    ∧ a_start appt = in_start input ∧ a_end appt = in_end input
    ∧ a_status appt = Scheduled
    ∧ a_createdBy appt = clientId
    ∧ a_cancelledAt appt = None
    ∧ a_audit appt = [ev]
    ∧ ev_type ev = Created ∧ ev_at ev = at_ ∧ ev_by ev = clientId
    ∧ assertNoOverlapOrThrow (appointments state) appt = Return tt.
Proof.
  destruct (readState_loads seededAt s) as (state & Hread & _).
  open_command. rewrite Hread.
  destruct (assertNoOverlapOrThrow _ _) eqn:Hov; [done|]. destruct a.
  intros [= <- <-]. eexists state, _. cbn. by repeat split.
Qed.

(** C5. A command on a record checks, in this order: that a record
    with the id exists (else "not found"), that the acting session
    created it (else the ownership error), that it is not cancelled
    (else "cancelled"). So once a cancel has succeeded, a further cancel
    of the same id by any session fails and leaves the storage, hence
    the record's trail, as it is. *)
Theorem record_guards_in_order (c : Command) (id seededAt at_ : string)
    (s s0 : Storage) (state : StoredSchedulerState) :
  targetId c = Some id →
  readState seededAt s = (s0, Return state) →
  ((∀ a, a ∈ appointments state → a_id a ≠ id) →
     run clientId c seededAt at_ s = (s0, Throw (Error "Appointment not found")))
  ∧ (∀ r, List.find (λ a, str_eq (a_id a) id) (appointments state) = Some r →
       (a_createdBy r ≠ clientId →
          run clientId c seededAt at_ s
          = (s0, Throw (Error "Appointment is locked by another user")))
       ∧ (a_createdBy r = clientId → isCancelled r = true →
          run clientId c seededAt at_ s
          = (s0, Throw (Error "Appointment is cancelled"))))
  ∧ (∀ s1 appt,
       run clientId (Cancel id) seededAt at_ s = (s1, Return appt) →
       at_ ≠ EmptyString →
       ∀ session seededAt' at',
         ∃ e, run session (Cancel id) seededAt' at' s1 = (s1, Throw e)
              ∧ (session = clientId → e = Error "Appointment is cancelled")).
Proof.
  intros Hid Hread. split; [|split].
  - intros Hnone%find_by_id_none.
    destruct c; try done; injection Hid as ->; open_command; rewrite Hread;
      unfold findAppointmentOrThrow; by rewrite Hnone.
  - intros r Hfind. split.
    + intros Hother.
      destruct c; try done; injection Hid as ->; open_command; rewrite Hread;
        unfold findAppointmentOrThrow, assertOwnedOrThrow, str_neq;
        rewrite Hfind; by rewrite bool_decide_false.
    + intros Hown Hcan. unfold isCancelled in Hcan.
      destruct c; try done; injection Hid as ->; open_command; rewrite Hread;
        unfold findAppointmentOrThrow, assertOwnedOrThrow, str_neq;
        rewrite Hfind, Hcan; by rewrite bool_decide_true.
  - intros s1 appt Hrun Hat session seededAt' at'.
    apply (record_success (Cancel id) id) in Hrun as
      (st & current & ev & _ & Hfind & Hown & _ & -> & Hida & Hcr & _ & _ & _
       & _ & Hcan & _); [|done].
    cbn in Hcan.
    pose proof (find_replaceById _ _ _ appt Hfind Hida) as Hfind'.
    open_command. cbn [readState appointments].
    unfold findAppointmentOrThrow, assertOwnedOrThrow, str_neq.
    rewrite Hfind', Hcan, Hcr. cbn [truthy].
    rewrite (bool_decide_false (at_ = EmptyString)) by done. cbn [negb].
    case_bool_decide as Hs; cbn [negb]; eexists; split; done.
Qed.

Lemma success_stamps (c : Command) (seededAt at_ : string)
    (s s' : Storage) (appt : Appointment) :
  run clientId c seededAt at_ s = (s', Return appt) → a_updatedAt appt = at_.
Proof.
  destruct (readState_loads seededAt s) as (state & Hread & _).
  destruct c; open_command; rewrite Hread.
  - overlap_guard; [done|]. by intros [= _ <-].
  - guards state current; try done. overlap_guard; [done|]. by intros [= _ <-].
  - guards state current; try done. overlap_guard; [done|]. by intros [= _ <-].
  - guards state current; try done. by intros [= _ <-].
  - guards state current; try done. by intros [= _ <-].
Qed.

Lemma replaceById_lookup (id : string) (next : Appointment)
    (apps : list Appointment) (i : nat) :
  replaceById id next apps !! i
  = (λ a, if str_eq (a_id a) id then next else a) <$> apps !! i.
Proof. unfold replaceById. apply list_lookup_fmap. Qed.

Lemma trail_opens_created_app (a a' : Appointment) (ev : AppointmentAuditEvent) :
  trail_opens_created a → a_audit a' = a_audit a ++ [ev] →
  trail_opens_created a'.
Proof.
  unfold trail_opens_created. intros Ha ->.
  by destruct (a_audit a).
Qed.

(** C3. A successful command stores a state whose version is the
    loaded one plus 1 and whose [updatedAt] is the command's clock
    reading (as is the returned record's), and writes exactly one audit
    event, of the command's kind:
    a create appends a record whose trail is that single [created]
    event and leaves every other record as it was; a command on a record
    leaves the list's length and all other records as they were and puts
    in the target's place the returned record, whose trail is the old
    trail followed by the new event. Every trail still opens with
    [created]. *)
Theorem commit_bookkeeping (c : Command) (seededAt at_ : string)
    (s s0 s' : Storage) (state : StoredSchedulerState) (appt : Appointment) :
  readState seededAt s = (s0, Return state) →
  ids_unique (appointments state) →
  trails_open_created (appointments state) →
  run clientId c seededAt at_ s = (s', Return appt) →
  ∃ state' ev,
    s' = Item state'
    ∧ version state' = version state + 1
    ∧ updatedAt state' = at_
    ∧ a_updatedAt appt = at_
    ∧ ev_type ev = eventKind c ∧ ev_at ev = at_ ∧ ev_by ev = clientId
    ∧ match targetId c with
      | None =>
          appointments state' = appointments state ++ [appt]
          ∧ a_audit appt = [ev]
      | Some id =>
          length (appointments state') = length (appointments state)
          ∧ (∃ i a, appointments state !! i = Some a ∧ a_id a = id)
          ∧ ∀ i a, appointments state !! i = Some a →
              if decide (a_id a = id)
              then appointments state' !! i = Some appt
                   ∧ a_audit appt = a_audit a ++ [ev]
              else appointments state' !! i = Some a
      end
    ∧ trails_open_created (appointments state').
Proof.
  intros Hread Huniq Htrails Hrun.
  pose proof (success_stamps _ _ _ _ _ _ Hrun) as Hstamp.
  destruct (targetId c) as [id|] eqn:Hid.
  - pose proof (record_success c id _ _ _ _ _ Hid Hrun) as
      (st & current & ev & Hread' & Hfind & _ & _ & Hs' & Hida & _ & Haudit
       & Hk & Hat & Hby & _).
    subst s'. rewrite Hread in Hread'. injection Hread' as _ <-.
    pose proof (find_by_id _ _ _ Hfind) as [Hin Hcur].
    eexists _, ev.
    repeat split; try done; cbn [version updatedAt appointments].
    + unfold replaceById. apply length_map.
    + apply list_elem_of_lookup in Hin as [i Hi]. by exists i, current.
    + intros i a Hi. rewrite replaceById_lookup, Hi. cbn. unfold str_eq.
      case_decide as Ha.
      * rewrite bool_decide_true by done. split; [done|].
        assert (a = current) as ->; [|done].
        apply (ids_unique_eq (appointments state)); try done; [|congruence].
        apply list_elem_of_lookup. by exists i.
      * by rewrite bool_decide_false.
    + unfold trails_open_created, replaceById in *.
      change (Forall trail_opens_created
                ((λ a, if str_eq (a_id a) id then appt else a)
                   <$> appointments state)).
      apply Forall_fmap. eapply Forall_impl; [exact Htrails|].
      intros a Ha. cbn. destruct (str_eq (a_id a) id); [|done].
      apply (trail_opens_created_app current _ ev); [|done].
      rewrite Forall_forall in Htrails. by apply Htrails.
  - destruct c; try done.
    apply create_success in Hrun as
      (st & ev & Hread' & -> & _ & _ & _ & _ & _ & _ & _ & Haudit & Hk & Hat
       & Hby & _).
    rewrite Hread in Hread'. injection Hread' as _ <-.
    eexists _, ev.
    repeat split; try done; cbn [version updatedAt appointments].
    unfold trails_open_created. apply Forall_app. split; [done|].
    apply Forall_singleton. unfold trail_opens_created.
    by rewrite Haudit, <- Hk.
Qed.

Lemma overlapping_sym (x y : Appointment) : overlapping x y = overlapping y x.
Proof. apply overlaps_sym. Qed.

(** Adding or substituting a record that passed the overlap check
    keeps the invariant. *)
Lemma invariant_with_checked (apps news : list Appointment) (appt : Appointment) :
  no_overlap_invariant apps →
  assertNoOverlapOrThrow apps appt = Return tt →
  (∀ x, x ∈ news → x = appt ∨ x ∈ apps) →
  no_overlap_invariant news.
Proof.
  intros Hinv Hpass%assertNoOverlap_passes Hnews x y Hx Hy Hid Hcx Hcy Ht.
  assert (∀ z, z ∈ apps → a_id z ≠ a_id appt → isCancelled z = false →
               a_therapistId z = a_therapistId appt →
               overlapping appt z = false) as Hfree.
  { intros z Hz Hzid Hzc Hzt. apply not_true_iff_false. intros Hov.
    apply Hpass. by exists z. }
  destruct (Hnews x Hx) as [->|Hx'], (Hnews y Hy) as [->|Hy'].
  - done.
  - apply Hfree; auto.
  - rewrite overlapping_sym. apply Hfree; auto.
  - by apply Hinv.
Qed.

Lemma replaceById_elem (id : string) (next x : Appointment)
    (apps : list Appointment) :
  x ∈ replaceById id next apps → x = next ∨ x ∈ apps.
Proof.
  unfold replaceById. intros (a & -> & Ha)%list_elem_of_fmap.
  destruct (str_eq (a_id a) id); auto.
Qed.

(** C1. Create, reschedule and reassign keep the no-overlap invariant:
    if it held in the loaded state, it holds in the state a successful
    command stores. And when the candidate window runs into a
    non-cancelled record of the (possibly new) resource whose id is not
    the candidate's own, the command fails with the overlap error. *)
Theorem overlap_invariant_enforced (c : Command) (seededAt at_ : string)
    (s s0 : Storage) (state : StoredSchedulerState) :
  revalidates c = true →
  readState seededAt s = (s0, Return state) →
  (∀ s' appt,
     no_overlap_invariant (appointments state) →
     run clientId c seededAt at_ s = (s', Return appt) →
     ∃ state', s' = Item state' ∧ no_overlap_invariant (appointments state'))
  ∧ match c with
    | Create input newId =>
        clashes (appointments state) newId (in_therapistId input)
                (in_start input) (in_end input) →
        run clientId c seededAt at_ s
        = (s0, Throw (Error "Overlapping booking for this resource"))
    | Reschedule id start end_ =>
        ∀ current,
          List.find (λ a, str_eq (a_id a) id) (appointments state) = Some current →
          a_createdBy current = clientId → isCancelled current = false →
          clashes (appointments state) id (a_therapistId current) start end_ →
          run clientId c seededAt at_ s
          = (s0, Throw (Error "Overlapping booking for this resource"))
    | Reassign id therapistId =>
        ∀ current,
          List.find (λ a, str_eq (a_id a) id) (appointments state) = Some current →
          a_createdBy current = clientId → isCancelled current = false →
          clashes (appointments state) id therapistId
                  (a_start current) (a_end current) →
          run clientId c seededAt at_ s
          = (s0, Throw (Error "Overlapping booking for this resource"))
    | UpdateStatus _ _ | Cancel _ => True
    end.
Proof.
  intros Hre Hread. split.
  - intros s' appt Hinv Hrun.
    destruct (targetId c) as [id|] eqn:Hid.
    + pose proof (record_success c id _ _ _ _ _ Hid Hrun) as
        (st & current & ev & Hread' & _ & _ & _ & Hs' & _ & _ & _ & _ & _ & _
         & _ & Hpass).
      rewrite Hread in Hread'. injection Hread' as _ <-.
      eexists. split; [done|]. cbn [appointments].
      apply (invariant_with_checked (appointments state) _ appt); auto.
      intros x. apply replaceById_elem.
    + destruct c; try done.
      apply create_success in Hrun as
        (st & ev & Hread' & Hs' & _ & _ & _ & _ & _ & _ & _ & _ & _ & _ & _
         & Hpass).
      rewrite Hread in Hread'. injection Hread' as _ <-.
      eexists. split; [done|]. cbn [appointments].
      apply (invariant_with_checked (appointments state) _ appt); auto.
      intros x [Hx|Hx%list_elem_of_singleton]%elem_of_app; auto.
  - destruct c as [input newId|id start end_|id therapistId| |]; try done.
    + intros Hclash. open_command. rewrite Hread.
      match goal with
      | |- context [assertNoOverlapOrThrow ?l ?a] =>
          destruct (assertNoOverlap_outcome l a) as [Hp|Hp]; rewrite Hp; [|done];
          apply assertNoOverlap_passes in Hp; by destruct Hp
      end.
    + intros current Hfind Hown Hcan Hclash.
      pose proof (find_by_id _ _ _ Hfind) as [_ Hcur].
      open_command. rewrite Hread.
      unfold findAppointmentOrThrow, assertOwnedOrThrow, str_neq.
      unfold isCancelled in Hcan.
      rewrite Hfind, Hcan, bool_decide_true by done. cbn [negb].
      match goal with
      | |- context [assertNoOverlapOrThrow ?l ?a] =>
          destruct (assertNoOverlap_outcome l a) as [Hp|Hp]; rewrite Hp; [|done];
          apply assertNoOverlap_passes in Hp; cbn in Hp; rewrite Hcur in Hp;
          by destruct Hp
      end.
    + intros current Hfind Hown Hcan Hclash.
      pose proof (find_by_id _ _ _ Hfind) as [_ Hcur].
      open_command. rewrite Hread.
      unfold findAppointmentOrThrow, assertOwnedOrThrow, str_neq.
      unfold isCancelled in Hcan.
      rewrite Hfind, Hcan, bool_decide_true by done. cbn [negb].
      match goal with
      | |- context [assertNoOverlapOrThrow ?l ?a] =>
          destruct (assertNoOverlap_outcome l a) as [Hp|Hp]; rewrite Hp; [|done];
          apply assertNoOverlap_passes in Hp; cbn in Hp; rewrite Hcur in Hp;
          by destruct Hp
      end.
Qed.

(** C10 (as amended). The only way [createAppointment] fails is the
    overlap error, which it throws exactly when the requested window
    runs into a non-cancelled record of the requested resource id;
    otherwise it stores and returns the new record, for every resource
    id, known or not. An unknown resource id is reported by
    [canScheduleWindow] only. *)
Theorem createAppointment_outcomes (input : CreateAppointmentInput)
    (newId seededAt at_ : string) (s s0 : Storage)
    (state : StoredSchedulerState) :
  readState seededAt s = (s0, Return state) →
  ((clashes (appointments state) newId (in_therapistId input)
            (in_start input) (in_end input)
    ∧ createAppointment clientId input newId seededAt at_ s
      = (s0, Throw (Error "Overlapping booking for this resource")))
   ∨ (¬ clashes (appointments state) newId (in_therapistId input)
                (in_start input) (in_end input)
      ∧ ∃ appt,
          createAppointment clientId input newId seededAt at_ s
          = (Item {| version := version state + 1; updatedAt := at_;
                     appointments := appointments state ++ [appt] |},
             Return appt)
          ∧ a_id appt = newId
          ∧ a_therapistId appt = in_therapistId input
          ∧ a_status appt = Scheduled))
  ∧ (∀ start end_ appointments locks context ignoreAppointmentId,
       (∀ t, t ∈ therapists context → t_id t ≠ in_therapistId input) →
       canScheduleWindow (in_therapistId input) start end_ appointments locks
         context ignoreAppointmentId
       = Return (NotOk "Therapist not found")).
Proof.
  intros Hread. split.
  - open_command. rewrite Hread.
    match goal with
    | |- context [assertNoOverlapOrThrow ?l ?a] =>
        destruct (assertNoOverlap_outcome l a) as [Hp|Hp]; rewrite Hp;
        [right|left]
    end.
    + apply assertNoOverlap_passes in Hp. split; [done|]. by eexists.
    + split; [|done]. by apply assertNoOverlap_throws in Hp.
  - intros start end_ apps locks context ign Hnone.
    unfold canScheduleWindow.
    destruct (List.find _ (therapists context)) as [t|] eqn:Hf; [|done].
    apply find_some in Hf as [Hin Heq]. apply list_elem_of_In in Hin.
    unfold str_eq in Heq. apply bool_decide_eq_true in Heq.
    by destruct (Hnone t Hin).
Qed.

(** C4 (as amended). [updateAppointmentStatus] does not consult the
    transition table: on a record that exists, belongs to the session
    and is not cancelled it succeeds for every requested status, stores
    it and logs a status-change from the old to the new status. The
    table itself lists no successor for [completed] and [incomplete];
    only callers use it, to restrict the choices they offer. *)
Theorem updateAppointmentStatus_applies_any_status (id : string)
    (status : AppointmentStatus) (seededAt at_ : string) (s s0 : Storage)
    (state : StoredSchedulerState) (current : Appointment) :
  readState seededAt s = (s0, Return state) →
  List.find (λ a, str_eq (a_id a) id) (appointments state) = Some current →
  a_createdBy current = clientId →
  isCancelled current = false →
  (∃ appt ev,
     updateAppointmentStatus clientId id status seededAt at_ s
     = (Item {| version := version state + 1; updatedAt := at_;
                appointments := replaceById id appt (appointments state) |},
        Return appt)
     ∧ a_status appt = status
     ∧ a_audit appt = a_audit current ++ [ev]
     ∧ ev_type ev = StatusChange
     ∧ (d_status <$> ev_from ev) = Some (Some (a_status current))
     ∧ (d_status <$> ev_to ev) = Some (Some status))
  ∧ nextAllowedStatuses Completed = []
  ∧ nextAllowedStatuses Incomplete = [].
Proof.
  intros Hread Hfind Hown Hcan. split; [|done].
  open_command. rewrite Hread.
  unfold findAppointmentOrThrow, assertOwnedOrThrow, str_neq.
  unfold isCancelled in Hcan.
  rewrite Hfind, Hcan, bool_decide_true by done. cbn [negb].
  eexists _, _. by repeat split.
Qed.

(** Unique ids are themselves kept by every command, as long as
    [randomId] hands out an id that is not in use. *)
Lemma replaceById_ids (id : string) (next : Appointment)
    (apps : list Appointment) :
  a_id next = id → a_id <$> replaceById id next apps = a_id <$> apps.
Proof.
  intros Hid. unfold replaceById.
  change (a_id <$> ((λ a, if str_eq (a_id a) id then next else a) <$> apps)
          = a_id <$> apps).
  rewrite <- list_fmap_compose. apply list_fmap_ext. intros _ a _. cbn.
  unfold str_eq. case_bool_decide; congruence.
Qed.

(** X17. Every successful command keeps the ids of the stored records
    unique, provided the id [randomId] hands to a create is not in
    use. *)
Lemma ids_unique_kept (c : Command) (seededAt at_ : string)
    (s s0 s' : Storage) (state : StoredSchedulerState) (appt : Appointment) :
  readState seededAt s = (s0, Return state) →
  ids_unique (appointments state) →
  (∀ input newId, c = Create input newId →
     ∀ a, a ∈ appointments state → a_id a ≠ newId) →
  run clientId c seededAt at_ s = (s', Return appt) →
  ∃ state', s' = Item state' ∧ ids_unique (appointments state').
Proof.
  intros Hread Huniq Hfresh Hrun.
  destruct (targetId c) as [id|] eqn:Hid.
  - pose proof (record_success c id _ _ _ _ _ Hid Hrun) as
      (st & current & ev & Hread' & _ & _ & _ & Hs' & Hida & _).
    rewrite Hread in Hread'. injection Hread' as _ <-.
    eexists. split; [done|]. cbn [appointments]. unfold ids_unique.
    change (NoDup (a_id <$> replaceById id appt (appointments state))).
    by rewrite replaceById_ids.
  - destruct c as [input newId| | | |]; try done.
    apply create_success in Hrun as (st & ev & Hread' & Hs' & Hida & _).
    rewrite Hread in Hread'. injection Hread' as _ <-.
    eexists. split; [done|]. cbn [appointments]. unfold ids_unique.
    change (NoDup (a_id <$> (appointments state ++ [appt]))).
    rewrite fmap_app. apply NoDup_app. split; [done|]. split.
    + intros x (a & -> & Ha)%list_elem_of_fmap Hx%list_elem_of_singleton.
      rewrite Hida in Hx. by destruct (Hfresh input newId eq_refl a Ha).
    + apply NoDup_singleton.
Qed.

(** On a store with unique ids the invariant reads the same over the
    positions of the list. *)
Lemma no_overlap_by_position (apps : list Appointment) :
  ids_unique apps →
  (no_overlap_invariant apps
   ↔ ∀ (i j : nat) x y, i ≠ j → apps !! i = Some x → apps !! j = Some y →
       isCancelled x = false → isCancelled y = false →
       a_therapistId x = a_therapistId y → overlapping x y = false).
Proof.
  intros Huniq. split.
  - intros Hinv i j x y Hij Hx Hy. apply Hinv.
    + apply list_elem_of_lookup. by exists i.
    + apply list_elem_of_lookup. by exists j.
    + intros Hid. apply Hij.
      apply (NoDup_lookup (a_id <$> apps) i j (a_id x)); [done|..].
      * by rewrite list_lookup_fmap, Hx.
      * by rewrite list_lookup_fmap, Hy, Hid.
  - intros Hpos x y [i Hx]%list_elem_of_lookup [j Hy]%list_elem_of_lookup Hid.
    apply (Hpos i j); try done. intros ->. congruence.
Qed.

End StoreFacts.

(** ** Window eligibility *)

Section RulesFacts.
Context `{Platform}.

Lemma withinTherapistWorkingHours_spec (t : Therapist) (start end_ : Date) :
  withinTherapistWorkingHours t start end_ = true ↔ inWorkingHours t start end_.
Proof.
  unfold withinTherapistWorkingHours, inWorkingHours, includes, toMin,
    num_ge, num_le.
  split.
  - case_bool_decide as Hday; cbn [negb]; [|done].
    destruct start as [|s]; [by destruct (toMinHHmm _)|].
    destruct end_ as [|e]; cbn;
      destruct (toMinHHmm (wh_start _)) as [from|],
               (toMinHHmm (wh_end _)) as [to|]; cbn;
      rewrite ?andb_false_r; try done.
    intros [Hs He]%andb_true_iff. apply Z.leb_le in Hs, He.
    by exists s, e, from, to.
  - intros (s & e & from & to & -> & -> & Hday & -> & -> & Hs & He). cbn.
    rewrite bool_decide_true by done. cbn.
    apply andb_true_iff. split; by apply Z.leb_le.
Qed.

Lemma hasTimeAwayConflict_spec (therapistId : string) (s : Z) (end_ : Date)
    (away : list TimeAway) :
  ∃ b, hasTimeAwayConflict therapistId (At s) end_ away = Return b
       ∧ (b = true ↔ timeOffHit therapistId (At s) end_ away).
Proof.
  unfold hasTimeAwayConflict, timeOffHit. cbn. eexists. split; [done|].
  rewrite existsb_exists. split.
  - intros (slot & Hin%list_elem_of_In & Hslot). exists slot, s.
    unfold str_neq in Hslot.
    case_bool_decide as Ht; [|done]. case_bool_decide as Hd; [|done].
    cbn in Hslot. rewrite <- Hd in Hslot. done.
  - intros (slot & s' & Hin%list_elem_of_In & [= <-] & Ht & Hd & Hov).
    exists slot. split; [done|]. unfold str_neq.
    rewrite !bool_decide_true by done. cbn. by rewrite <- Hd.
Qed.

Lemma slotOverlapsLocks_spec (therapistId : string) (start end_ : Date)
    (locks : list SlotLock) :
  slotOverlapsLocks therapistId start end_ locks = true
  ↔ lockHit therapistId start end_ locks.
Proof.
  unfold slotOverlapsLocks, lockHit. rewrite existsb_exists. split.
  - intros (lock & Hin%list_elem_of_In & Hl). exists lock.
    unfold str_neq in Hl. by case_bool_decide.
  - intros (lock & Hin%list_elem_of_In & Ht & Hov). exists lock.
    split; [done|]. unfold str_neq. by rewrite bool_decide_true.
Qed.

Lemma ignored_spec (ignoreAppointmentId : option string) (a : Appointment) :
  truthy ignoreAppointmentId && bool_decide (Some (a_id a) = ignoreAppointmentId)
  = true ↔ ignored ignoreAppointmentId a.
Proof.
  unfold ignored, truthy. rewrite andb_true_iff. split.
  - intros [Ht Heq%bool_decide_eq_true]. destruct ignoreAppointmentId as [i|];
      [|done].
    exists i. injection Heq as ->. apply negb_true_iff in Ht.
    by apply bool_decide_eq_false in Ht.
  - intros (i & -> & Hne & ->). split; [|by apply bool_decide_eq_true].
    by rewrite bool_decide_false.
Qed.

Lemma hasAppointmentOverlap_spec (appointments : list Appointment)
    (therapistId : string) (start end_ : Date)
    (ignoreAppointmentId : option string) :
  hasAppointmentOverlap appointments therapistId start end_ ignoreAppointmentId
  = true
  ↔ appointmentHit appointments therapistId start end_ ignoreAppointmentId.
Proof.
  unfold hasAppointmentOverlap, appointmentHit, isCancelled.
  rewrite existsb_exists. split.
  - intros (a & Hin%list_elem_of_In & Ha). exists a.
    destruct (truthy (a_cancelledAt a)); [done|]. unfold str_neq in Ha.
    case_bool_decide; [|done]. cbn in Ha.
    destruct (truthy ignoreAppointmentId && _) eqn:Hi; [done|].
    repeat split; try done. intros Hig%ignored_spec. congruence.
  - intros (a & Hin%list_elem_of_In & Hc & Ht & Hig & Hov). exists a.
    split; [done|]. unfold str_neq. rewrite Hc, bool_decide_true by done. cbn.
    destruct (truthy ignoreAppointmentId && _) eqn:Hi; [|done].
    by apply ignored_spec in Hi.
Qed.


End RulesFacts.

(** ** The conflict detector *)

Section DetectorFacts.
Context `{Platform}.

Lemma insertSorted_perm (x : Appointment) (l : list Appointment) :
  insertSorted x l ≡ₚ x :: l.
Proof.
  induction l as [|y l IH]; cbn [insertSorted]; [done|].
  destruct (num_gt (byStart x y) (Some 0)); [|reflexivity].
  rewrite IH. apply Permutation_swap.
Qed.

Lemma sortByStart_perm (l : list Appointment) : sortByStart l ≡ₚ l.
Proof.
  induction l as [|x l IH]; [reflexivity|].
  change (sortByStart (x :: l)) with (insertSorted x (sortByStart l)).
  rewrite insertSorted_perm. by f_equiv.
Qed.

Lemma startsBefore_trans (x y z : Appointment) :
  startsBefore x y → startsBefore y z → startsBefore x z.
Proof.
  intros (sx & sy & Hx & Hy & Hxy) (sy' & sz & Hy' & Hz & Hyz).
  rewrite Hy in Hy'. injection Hy' as <-. exists sx, sz. repeat split; try done. lia.
Qed.

Lemma insertSorted_sorted (x : Appointment) (l : list Appointment) :
  wellTimed x → Forall wellTimed l →
  StronglySorted startsBefore l →
  StronglySorted startsBefore (insertSorted x l).
Proof.
  intros (sx & ex & Hsx & _ & _) Hl Hsorted.
  induction l as [|y l IH]; cbn [insertSorted].
  - apply StronglySorted_cons. split; constructor.
  - apply Forall_cons in Hl as [(sy & ey & Hsy & _ & _) Hl].
    apply StronglySorted_cons in Hsorted as [Hy Hsorted].
    unfold byStart. rewrite Hsx, Hsy. cbn [getTime num_gt num_lt].
    destruct (Z.ltb_spec 0 (sx - sy)).
    + apply StronglySorted_cons. split; [|by apply IH].
      rewrite insertSorted_perm. apply Forall_cons. split; [|done].
      exists sy, sx. repeat split; try done. lia.
    + apply StronglySorted_cons. split.
      * assert (startsBefore x y) as Hxy.
        { exists sx, sy. repeat split; try done. lia. }
        apply Forall_cons. split; [done|].
        eapply Forall_impl; [exact Hy|]. intros z. by apply startsBefore_trans.
      * by apply StronglySorted_cons.
Qed.

Lemma sortByStart_sorted (l : list Appointment) :
  Forall wellTimed l → StronglySorted startsBefore (sortByStart l).
Proof.
  induction l as [|x l IH]; [constructor|].
  change (sortByStart (x :: l)) with (insertSorted x (sortByStart l)).
  intros [Hx Hl]%Forall_cons. apply insertSorted_sorted; [done| |by apply IH].
  by rewrite sortByStart_perm.
Qed.

Lemma scanAdjacent_step (a b : Appointment) (l : list Appointment)
    (acc : gset string) :
  scanAdjacent (a :: b :: l) acc
  = scanAdjacent (b :: l)
      (if overlapping a b then {[a_id b]} ∪ ({[a_id a]} ∪ acc) else acc).
Proof. done. Qed.

Lemma scanAdjacent_union (l : list Appointment) (acc : gset string) :
  scanAdjacent l acc = scanAdjacent l ∅ ∪ acc.
Proof.
  revert acc. induction l as [|a l IH]; intros acc.
  { cbn. by rewrite (left_id_L ∅ (∪)). }
  destruct l as [|b l].
  { cbn. by rewrite (left_id_L ∅ (∪)). }
  rewrite !scanAdjacent_step, IH.
  rewrite (IH (if overlapping a b then _ else ∅)).
  destruct (overlapping a b); rewrite (right_id_L ∅ (∪)); [|done].
  by rewrite !(assoc_L (∪)).
Qed.

Lemma scanAdjacent_empty (a b : Appointment) (l : list Appointment) :
  scanAdjacent (a :: b :: l) ∅ = ∅ →
  overlapping a b = false ∧ scanAdjacent (b :: l) ∅ = ∅.
Proof.
  rewrite scanAdjacent_step, scanAdjacent_union.
  destruct (overlapping a b); rewrite (right_id_L ∅ (∪)); [|done].
  intros Hempty. assert (a_id b ∈ (∅ : gset string)) as []%elem_of_empty.
  rewrite <- Hempty, !elem_of_union, elem_of_singleton. auto.
Qed.

(** On a list sorted by start whose windows are proper, a window that
    does not overlap its successor ends before every later one
    starts. *)
Lemma sorted_neighbours_suffice (l : list Appointment) :
  StronglySorted startsBefore l → Forall wellTimed l →
  scanAdjacent l ∅ = ∅ →
  ∀ (i j : nat) x y, (i < j)%nat → l !! i = Some x → l !! j = Some y →
    overlapping x y = false.
Proof.
  induction l as [|a l IH]; intros Hsorted Hwell Hscan i j x y Hij Hx Hy;
    [done|].
  apply StronglySorted_cons in Hsorted as [Ha Hsorted].
  apply Forall_cons in Hwell as [(sa & ea & Hsa & Hea & Hae) Hwell].
  destruct l as [|b l].
  { destruct j as [|j]; [lia|]. by destruct j. }
  apply scanAdjacent_empty in Hscan as [Hab Hscan].
  destruct i as [|i], j as [|j]; try lia; cbn in Hx, Hy.
  - injection Hx as <-.
    assert (y ∈ b :: l) as Hyin by (apply list_elem_of_lookup; eauto).
    assert (startsBefore b y) as (sb & sy & Hsb & Hsy & Hby).
    { apply StronglySorted_cons in Hsorted as [Hb _].
      apply elem_of_cons in Hyin as [->|Hyin].
      - apply Forall_cons in Hwell as [(sb & eb & Hsb & _ & _) _].
        by exists sb, sb.
      - rewrite Forall_forall in Hb. by apply Hb. }
    apply Forall_cons in Ha as [(sa' & sb' & Hsa' & Hsb' & Hab') _].
    apply Forall_cons in Hwell as [(sb'' & eb & Hsb'' & Heb & Hbe) _].
    rewrite Hsa in Hsa'. injection Hsa' as <-.
    rewrite Hsb in Hsb', Hsb''. injection Hsb' as <-. injection Hsb'' as <-.
    unfold overlapping, overlaps, date_lt, date_gt, num_gt in *.
    rewrite Hsa, Hea, Hsb, Heb in Hab. rewrite Hea, Hsy. cbn in *.
    apply andb_false_iff in Hab as [Hab|Hab]; apply Z.ltb_ge in Hab; [lia|].
    apply andb_false_iff. right. apply Z.ltb_ge. lia.
  - apply (IH Hsorted Hwell Hscan i j); [lia|done..].
Qed.



Lemma groupStep_fold (apps : list Appointment)
    (acc : gmap string (list Appointment)) (k : string) :
  fold_left groupStep apps acc !! k
  = match filter (inGroup k) apps with
    | [] => acc !! k
    | l => Some (default [] (acc !! k) ++ l)
    end.
Proof.
  revert acc. induction apps as [|a apps IH]; intros acc; [done|].
  cbn [fold_left]. rewrite IH, filter_cons. unfold groupStep.
  destruct (decide (inGroup k a)) as [[Hc <-]|Hout].
  - unfold isCancelled in Hc. rewrite Hc, lookup_insert_eq. cbn [default].
    destruct (filter _ apps) as [|b l]; cbn [default]; unfold id; [done|].
    by rewrite <- app_assoc.
  - destruct (truthy (a_cancelledAt a)) eqn:Hc; [done|].
    rewrite lookup_insert_ne; [done|]. intros Hk. by destruct Hout.
Qed.

Lemma grouped_lookup (apps : list Appointment) (k : string) :
  grouped apps !! k
  = match filter (inGroup k) apps with [] => None | l => Some l end.
Proof. unfold grouped. rewrite groupStep_fold. by destruct (filter _ apps). Qed.

Lemma detectConflicts_elem (apps : list Appointment) (id : string) :
  id ∈ detectConflicts apps
  ↔ ∃ k l, grouped apps !! k = Some l ∧ id ∈ scanAdjacent (sortByStart l) ∅.
Proof.
  unfold detectConflicts. generalize (grouped apps). intros m.
  apply (map_fold_weak_ind (λ r m,
    id ∈ r ↔ ∃ k l, m !! k = Some l ∧ id ∈ scanAdjacent (sortByStart l) ∅)).
  - split; [by intros ?%elem_of_empty|]. by intros (k & l & ?%lookup_empty_Some & _).
  - clear m. intros k l m r Hfresh IH. rewrite scanAdjacent_union, elem_of_union, IH.
    split.
    + intros [Hnew|(k' & l' & Hk' & Hold)].
      * exists k, l. by rewrite lookup_insert_eq.
      * exists k', l'. split; [|done]. rewrite lookup_insert_ne; [done|].
        intros ->. congruence.
    + intros (k' & l' & Hk' & Hin).
      apply lookup_insert_Some in Hk' as [[<- <-]|[Hne Hk']]; [by left|].
      right. by exists k', l'.
Qed.

(** X18. When the detector flags nothing, no two different non-cancelled
    records of one therapist overlap, provided their windows are
    proper: the part of the design document's argument that holds. *)
Lemma nothing_flagged_nothing_overlaps (apps : list Appointment) :
  (∀ a, a ∈ apps → isCancelled a = false → wellTimed a) →
  detectConflicts apps = ∅ →
  ∀ x y, x ∈ apps → y ∈ apps → x ≠ y →
    isCancelled x = false → isCancelled y = false →
    a_therapistId x = a_therapistId y →
    overlapping x y = false.
Proof.
  intros Hwell Hnone x y Hx Hy Hxy Hcx Hcy Ht.
  set (k := a_therapistId x). set (l := filter (inGroup k) apps).
  assert (x ∈ l) as Hxl by (apply list_elem_of_filter; by split).
  assert (y ∈ l) as Hyl by (apply list_elem_of_filter; by split).
  assert (grouped apps !! k = Some l) as Hgroup.
  { rewrite grouped_lookup. fold l. destruct l; [by apply elem_of_nil in Hxl|done]. }
  assert (Forall wellTimed l) as Hl.
  { apply Forall_forall. intros a [[Hc _] Ha]%list_elem_of_filter. auto. }
  assert (scanAdjacent (sortByStart l) ∅ = ∅) as Hscan.
  { apply set_eq. intros id. split; [|by intros ?%elem_of_empty].
    intros Hid. rewrite <- Hnone. apply detectConflicts_elem. by exists k, l. }
  pose proof (sortByStart_sorted l Hl) as Hsorted.
  assert (Forall wellTimed (sortByStart l)) as Hl' by (by rewrite sortByStart_perm).
  rewrite <- (sortByStart_perm l) in Hxl, Hyl.
  apply list_elem_of_lookup in Hxl as [i Hi], Hyl as [j Hj].
  destruct (Nat.lt_total i j) as [Hij|[->|Hij]].
  - by apply (sorted_neighbours_suffice _ Hsorted Hl' Hscan i j).
  - congruence.
  - rewrite overlapping_sym.
    by apply (sorted_neighbours_suffice _ Hsorted Hl' Hscan j i).
Qed.



Lemma scanAdjacent_elem (s : list Appointment) (id : string) :
  id ∈ scanAdjacent s ∅ →
  ∃ l1 x y l2, s = l1 ++ x :: y :: l2 ∧ overlapping x y = true
               ∧ (id = a_id x ∨ id = a_id y).
Proof.
  induction s as [|a s IH]; [by intros ?%elem_of_empty|].
  destruct s as [|b s]; [by intros ?%elem_of_empty|].
  rewrite scanAdjacent_step, scanAdjacent_union, elem_of_union.
  intros [Hlater|Hnow].
  - destruct (IH Hlater) as (l1 & x & y & l2 & -> & Hov & Hid).
    by exists (a :: l1), x, y, l2.
  - destruct (overlapping a b) eqn:Hov; [|by apply elem_of_empty in Hnow].
    exists [], a, b, s. split; [done|]. split; [done|].
    rewrite !elem_of_union, !elem_of_singleton in Hnow.
    destruct Hnow as [|[|?%elem_of_empty]]; auto; done.
Qed.

(** X19. What the detector flags is in conflict: a flagged id belongs to one
    of two different non-cancelled records of one therapist that
    overlap. *)
Lemma flagged_is_in_conflict (apps : list Appointment) (id : string) :
  id ∈ detectConflicts apps →
  ∃ x y, [x; y] ⊆+ apps ∧ isCancelled x = false ∧ isCancelled y = false
         ∧ a_therapistId x = a_therapistId y ∧ overlapping x y = true
         ∧ (id = a_id x ∨ id = a_id y).
Proof.
  intros (k & l & Hgroup & Hid)%detectConflicts_elem.
  rewrite grouped_lookup in Hgroup.
  assert (l = filter (inGroup k) apps) as Hl.
  { destruct (filter _ apps); [done|]. by injection Hgroup as <-. }
  clear Hgroup.
  destruct (scanAdjacent_elem _ _ Hid) as (l1 & x & y & l2 & Hs & Hov & Hxy).
  assert ([x; y] ⊆+ l) as Hsub.
  { rewrite <- (sortByStart_perm l), Hs.
    apply submseteq_inserts_l, sublist_submseteq.
    apply (sublist_inserts_r l2 [x; y] [x; y]). done. }
  assert (x ∈ l) as Hx.
  { eapply elem_of_submseteq; [|done]. apply elem_of_cons. by left. }
  assert (y ∈ l) as Hy.
  { eapply elem_of_submseteq; [|done].
    apply elem_of_cons. right. apply elem_of_cons. by left. }
  rewrite Hl in Hx, Hy.
  apply list_elem_of_filter in Hx as [[Hcx Htx] _], Hy as [[Hcy Hty] _].
  exists x, y. repeat split; try done; [|congruence].
  etrans; [exact Hsub|]. rewrite Hl. apply sublist_submseteq, sublist_filter.
Qed.

End DetectorFacts.


(** C9. The detector misses an overlap between records that are not
    neighbours once sorted by start: with a 9:00-12:00 booking and two
    short ones inside it (9:30-10:00 and 10:30-11:00) on one therapist,
    the last one overlaps the long one, yet only the first two are
    flagged. *)
Theorem detectConflicts_misses_nested_overlap :
  late ∈ [long; early; late] ∧ long ∈ [long; early; late]
  ∧ isCancelled late = false ∧ isCancelled long = false
  ∧ a_therapistId late = a_therapistId long
  ∧ a_id late ≠ a_id long
  ∧ overlapping late long = true
  ∧ (a_id late ∉ detectConflicts [long; early; late])
  ∧ detectConflicts [long; early; late] = {[a_id long; a_id early]}.
Proof.
  split; [set_solver|]. split; [set_solver|].
  do 5 (split; [done|]). split.
  - apply (bool_decide_eq_false_1 _). vm_compute. reflexivity.
  - apply (bool_decide_unpack _). vm_compute. exact I.
Qed.

(** ** The properties at concrete inputs *)

Ltac by_cases_on_members :=
  let x := fresh "x" in let y := fresh "y" in
  let Hx := fresh "Hx" in let Hy := fresh "Hy" in
  intros x y Hx Hy ? ? ? ?;
  repeat (apply elem_of_cons in Hx as [->|Hx]);
  try (by apply elem_of_nil in Hx);
  repeat (apply elem_of_cons in Hy as [->|Hy]);
  try (by apply elem_of_nil in Hy);
  try done; vm_compute; reflexivity.

Lemma shared_no_overlap : no_overlap_invariant [morning; midday; finished].
Proof. by_cases_on_members. Qed.

Lemma shared_ids_unique : ids_unique [morning; midday; finished].
Proof. apply (bool_decide_unpack _). vm_compute. exact I. Qed.

Lemma shared_trails : trails_open_created [morning; midday; finished].
Proof. repeat constructor. Qed.

(** The seed the store starts from has unique ids and well-formed
    trails, but two of its bookings on t1 overlap. *)
Lemma seed_well_formed :
  ids_unique seedAppointments ∧ trails_open_created seedAppointments.
Proof.
  split; [|repeat constructor].
  apply (bool_decide_unpack _). vm_compute. exact I.
Qed.

Lemma seed_overlaps : ¬ no_overlap_invariant seedAppointments.
Proof.
  intros Hinv.
  specialize (Hinv (seedAppointment "a1" "c1" "t1" "D. Carter" "2025-01-13"
                      "09:00" "10:00" Evaluation)
                   (seedAppointment "a2" "c1" "t1" "R. Patel" "2025-01-13"
                      "09:30" "10:30" Followup)).
  assert (true = false) as Habs; [|done].
  apply Hinv; try done; unfold seedAppointments; set_solver.
Qed.

(** Session A moves its 9:00-10:00 to 11:00-12:00: the invariant is
    kept. *)
Lemma overlap_invariant_enforced_witness :
  ∃ state',
    (run sessionA (Reschedule "a1" "2025-01-13T11:00:00" "2025-01-13T12:00:00")
         clockSeed clockNow shared).1 = Item state'
    ∧ no_overlap_invariant (appointments state').
Proof.
  pose proof (overlap_invariant_enforced sessionA
    (Reschedule "a1" "2025-01-13T11:00:00" "2025-01-13T12:00:00")
    clockSeed clockNow shared shared _ eq_refl eq_refl) as [Hkeep _].
  assert (∃ s' appt,
    run sessionA (Reschedule "a1" "2025-01-13T11:00:00" "2025-01-13T12:00:00")
        clockSeed clockNow shared = (s', Return appt)) as (s' & appt & Hrun).
  { eexists _, _. lazy. reflexivity. }
  destruct (Hkeep s' appt shared_no_overlap Hrun) as (state' & Hs' & Hinv).
  exists state'. rewrite Hrun. by split.
Defined.

(** Session B asks for 9:30-10:30 on t1 while A holds 9:00-10:00: the
    store rejects the create and keeps its state. *)
Example overlap_rejected :
  run sessionB (Create lateRequest "n1") clockSeed clockNow shared
  = (shared, Throw (Error "Overlapping booking for this resource")).
Proof. vm_compute. reflexivity. Qed.

(** C2, counterexample. On a storage that holds nothing yet, a cancel of
    an unknown id fails, and the storage now holds the seeded state. *)
Lemma failed_command_on_empty_storage_seeds :
  run sessionA (Cancel "zz") clockSeed clockNow NoItem
  = (Item {| version := 1; updatedAt := clockSeed;
             appointments := seedAppointments |},
     Throw (Error "Appointment not found"))
  ∧ (run sessionA (Cancel "zz") clockSeed clockNow NoItem).1 ≠ NoItem.
Proof. split; [vm_compute; reflexivity | done]. Qed.

(** Session B sees session A's 9:00-10:00 as one lock owned by A;
    session A sees no lock for its own booking. *)
Example locks_seen_by_each_session :
  getLocksForRange [morning] sessionB
  = [ {| l_id := "lock_a1"; l_therapistId := "t1";
         l_start := "2025-01-13T09:00:00"; l_end := "2025-01-13T10:00:00";
         l_lockedBy := sessionA; l_reason := Booked |} ]
  ∧ getLocksForRange [morning] sessionA = [].
Proof. split; vm_compute; reflexivity. Qed.

(** Session B tries to cancel session A's booking: the storage stays
    as it was. *)
Lemma failed_command_changes_nothing_witness :
  (run sessionB (Cancel "a1") clockSeed clockNow shared).1 = shared.
Proof.
  destruct (failed_command_changes_nothing sessionB (Cancel "a1")
    clockSeed clockNow shared shared
    (Error "Appointment is locked by another user")) as [_ Hsame].
  - vm_compute. reflexivity.
  - exact (Hsame _ eq_refl).
Defined.

(** Session A's move to 11:00-12:00 takes the version from 1 to 2 and
    adds one [rescheduled] event behind the [created] one. *)
Lemma commit_bookkeeping_witness :
  ∃ state' appt,
    run sessionA (Reschedule "a1" "2025-01-13T11:00:00" "2025-01-13T12:00:00")
        clockSeed clockNow shared = (Item state', Return appt)
    ∧ version state' = 2
    ∧ ev_type <$> a_audit appt = [Created; Rescheduled].
Proof.
  assert (∃ s' appt,
    run sessionA (Reschedule "a1" "2025-01-13T11:00:00" "2025-01-13T12:00:00")
        clockSeed clockNow shared = (s', Return appt)) as (s' & appt & Hrun).
  { eexists _, _. lazy. reflexivity. }
  destruct (commit_bookkeeping sessionA
    (Reschedule "a1" "2025-01-13T11:00:00" "2025-01-13T12:00:00")
    clockSeed clockNow shared shared s' _ appt eq_refl
    shared_ids_unique shared_trails Hrun)
    as (state' & ev & -> & Hversion & _ & _ & Hkind & _ & _ & (_ & _ & Hat)
        & _).
  exists state', appt. split; [done|]. split; [exact Hversion|].
  destruct (Hat 0%nat morning eq_refl) as [_ ->]. cbn. by rewrite Hkind.
Defined.

(** Moving a scheduled booking straight to [completed]. *)
Lemma updateAppointmentStatus_applies_any_status_witness :
  ∃ appt,
    (updateAppointmentStatus sessionA "a1" Completed clockSeed clockNow shared).2
    = Return appt
    ∧ a_status appt = Completed.
Proof.
  destruct (updateAppointmentStatus_applies_any_status sessionA "a1" Completed
    clockSeed clockNow shared shared _ morning eq_refl eq_refl eq_refl eq_refl)
    as [(appt & ev & Hrun & Hstatus & _) _].
  exists appt. by rewrite Hrun.
Defined.

(** C4, counterexample. A completed record is taken back to
    [scheduled], a transition the table does not list: the command
    succeeds and stores the new status. *)
Lemma updateAppointmentStatus_leaves_terminal_state :
  a_status finished = Completed
  ∧ (Scheduled ∉ nextAllowedStatuses Completed)
  ∧ ∃ state' appt,
      updateAppointmentStatus sessionA "a2" Scheduled clockSeed clockNow shared
      = (Item state', Return appt)
      ∧ a_status appt = Scheduled
      ∧ appointments state' !! 2%nat = Some appt.
Proof.
  split; [done|]. split; [set_solver|].
  eexists _, _. lazy. done.
Qed.

(** Session B cannot cancel session A's booking, and A cannot cancel it
    twice. *)
Lemma record_guards_in_order_witness :
  run sessionB (Cancel "a1") clockSeed clockNow shared
  = (shared, Throw (Error "Appointment is locked by another user"))
  ∧ ∃ s1 appt,
      run sessionA (Cancel "a1") clockSeed clockNow shared = (s1, Return appt)
      ∧ run sessionA (Cancel "a1") clockSeed clockNow s1
        = (s1, Throw (Error "Appointment is cancelled")).
Proof.
  split.
  - destruct (record_guards_in_order sessionB (Cancel "a1") "a1" clockSeed
      clockNow shared shared _ eq_refl eq_refl) as (_ & Hfound & _).
    destruct (Hfound morning eq_refl) as [Hlocked _]. by apply Hlocked.
  - destruct (record_guards_in_order sessionA (Cancel "a1") "a1" clockSeed
      clockNow shared shared _ eq_refl eq_refl) as (_ & _ & Hagain).
    assert (∃ s1 appt,
      run sessionA (Cancel "a1") clockSeed clockNow shared = (s1, Return appt))
      as (s1 & appt & Hrun).
    { eexists _, _. lazy. reflexivity. }
    exists s1, appt. split; [done|].
    destruct (Hagain s1 appt Hrun ltac:(done) sessionA clockSeed clockNow)
      as (e & Hfail & He).
    by rewrite Hfail, He.
Defined.


(** A window on the day of a time-away entry is refused: the seed data
    keep t2 free during the training of 16 January. *)
Example time_off_same_day :
  canScheduleWindow "t2"
    (parseISO "2025-01-16T13:30:00") (parseISO "2025-01-16T14:00:00")
    seedAppointments []
    {| therapists := mockTherapists; timeAway := mockTimeAway |} None
  = Return (NotOk "Time off").
Proof. vm_compute. reflexivity. Qed.

(** The day of the start is read off [toISOString], which is the UTC
    day, while the time-away entries carry local dates: eight hours west
    of UTC a 16:30-17:30 booking inside a time-away window of the same
    local day is accepted, where in UTC it is refused. *)
Lemma time_away_day_is_the_utc_day :
  @canScheduleWindow pacific "t3"
    (@parseISO pacific "2025-01-15T16:30:00")
    (@parseISO pacific "2025-01-15T17:30:00") [] [] courseContext None
  = Return Ok
  ∧ @canScheduleWindow utc "t3"
      (@parseISO utc "2025-01-15T16:30:00")
      (@parseISO utc "2025-01-15T17:30:00") [] [] courseContext None
    = Return (NotOk "Time off").
Proof. split; vm_compute; reflexivity. Qed.

(** A create for therapist t1 on a store that holds no appointment yet. *)
Lemma createAppointment_outcomes_witness :
  ∃ appt,
    (createAppointment sessionA lateRequest "n1" clockSeed clockNow
       (Item (stateOf []))).2 = Return appt
    ∧ a_therapistId appt = "t1".
Proof.
  destruct (createAppointment_outcomes sessionA lateRequest "n1" clockSeed
    clockNow (Item (stateOf [])) _ _ eq_refl)
    as [[[(a & Ha & _) _]|[_ (appt & Hrun & _ & Ht & _)]] _].
  - by apply elem_of_nil in Ha.
  - exists appt. by rewrite Hrun.
Defined.

(** C10, counterexample. No therapist has the id t9, yet a create for
    it on the freshly seeded store succeeds and stores the record. *)
Lemma createAppointment_unknown_resource_succeeds :
  (∀ t, t ∈ mockTherapists → t_id t ≠ in_therapistId strayRequest)
  ∧ ∃ state' appt,
      createAppointment sessionA strayRequest "n1" clockSeed clockNow NoItem
      = (Item state', Return appt)
      ∧ a_therapistId appt = "t9"
      ∧ appt ∈ appointments state'
      ∧ version state' = 2.
Proof.
  split.
  - intros t Ht. unfold mockTherapists in Ht.
    repeat (apply elem_of_cons in Ht as [->|Ht]); try done.
    by apply elem_of_nil in Ht.
  - eexists _, _. lazy. repeat split. set_solver.
Qed.

(** ** Snapping and durations *)

(** X1. For a positive slot size, snapping down and snapping up land on
    multiples of the slot that bracket the value: the floor is at most
    the value and less than a slot below it, the ceiling at least the
    value and less than a slot above it. *)
Theorem snapMinutes_brackets (m slot : Z) :
  0 < slot →
  ∃ lo hi,
    snapMinutes (Some m) (Some slot) Floor = Some lo
    ∧ snapMinutes (Some m) (Some slot) Ceil = Some hi
    ∧ (slot | lo) ∧ (slot | hi)
    ∧ lo ≤ m < lo + slot
    ∧ hi - slot < m ≤ hi.
Proof.
  intros Hslot. unfold snapMinutes, ceilDiv.
  destruct (Z.eqb_spec slot 0) as [->|_]; [lia|].
  eexists _, _. split; [done|]. split; [done|].
  split; [apply Z.divide_factor_r|]. split; [apply Z.divide_factor_r|].
  pose proof (Z.div_mod m slot ltac:(lia)) as Hm.
  pose proof (Z.mod_pos_bound m slot Hslot) as Hr.
  pose proof (Z.div_mod (- m) slot ltac:(lia)) as Hm'.
  pose proof (Z.mod_pos_bound (- m) slot Hslot) as Hr'.
  split; lia.
Qed.

(** 9:10 on a grid of 15 minutes lies between 9:00 and 9:15. *)
Lemma snapMinutes_brackets_witness :
  ∃ lo hi,
    snapMinutes (Some 550) (Some 15) Floor = Some lo
    ∧ snapMinutes (Some 550) (Some 15) Ceil = Some hi
    ∧ (15 | lo) ∧ (15 | hi)
    ∧ lo ≤ 550 < lo + 15
    ∧ hi - 15 < 550 ≤ hi.
Proof. apply (snapMinutes_brackets 550 15). lia. Defined.

(** X2. For a positive slot size, snapping to the nearest lands on a
    multiple of the slot at most half a slot away from the value, and a
    value midway between two multiples goes to the upper one. *)
Theorem snapMinutes_nearest (m slot : Z) :
  0 < slot →
  ∃ r,
    snapMinutes (Some m) (Some slot) Round = Some r
    ∧ (slot | r)
    ∧ 2 * (r - m) ≤ slot
    ∧ 2 * (m - r) < slot.
Proof.
  intros Hslot. unfold snapMinutes, roundDiv.
  destruct (Z.eqb_spec slot 0) as [->|_]; [lia|].
  eexists. split; [done|]. split; [apply Z.divide_factor_r|].
  pose proof (Z.div_mod (2 * m + slot) (2 * slot) ltac:(lia)) as Hm.
  pose proof (Z.mod_pos_bound (2 * m + slot) (2 * slot) ltac:(lia)) as Hr.
  split; lia.
Qed.

(** 9:07 on a grid of 15 minutes. *)
Lemma snapMinutes_nearest_witness :
  ∃ r,
    snapMinutes (Some 547) (Some 15) Round = Some r
    ∧ (15 | r)
    ∧ 2 * (r - 547) ≤ 15
    ∧ 2 * (547 - r) < 15.
Proof. apply (snapMinutes_nearest 547 15). lia. Defined.

(** X3. A value already on the slot grid is left where it is by every
    mode, for every slot size other than 0, and a slot size of 0 gives
    [NaN] whatever the value and the mode. *)
Theorem snapMinutes_fixed_points (k slot : Z) (mode : SnapMode) :
  slot ≠ 0 →
  snapMinutes (Some (k * slot)) (Some slot) mode = Some (k * slot)
  ∧ ∀ m, snapMinutes m (Some 0) mode = None.
Proof.
  intros Hslot. split.
  - unfold snapMinutes, ceilDiv, roundDiv.
    destruct (Z.eqb_spec slot 0) as [|_]; [done|]. f_equal.
    destruct mode.
    + by rewrite Z.div_mul.
    + replace (2 * (k * slot) + slot) with (slot + k * (2 * slot)) by lia.
      rewrite Z.div_add by lia.
      assert (slot / (2 * slot) = 0) as ->; [|lia].
      destruct (Z.lt_trichotomy slot 0) as [Hneg|[?|Hpos]]; [|done|].
      * apply Z.div_small_iff; lia.
      * apply Z.div_small; lia.
    + replace (- (k * slot)) with (- k * slot) by lia.
      rewrite Z.div_mul by done. lia.
  - intros [m|]; done.
Qed.

(** 9:00 is on the grid of 15 minutes. *)
Lemma snapMinutes_fixed_points_witness :
  snapMinutes (Some (36 * 15)) (Some 15) Round = Some (36 * 15)
  ∧ ∀ m, snapMinutes m (Some 0) Round = None.
Proof. apply (snapMinutes_fixed_points 36 15 Round). lia. Defined.

(** X4. Adding whole minutes to a date and measuring the distance gives
    the minutes back, whenever the sum is still a valid date. *)
Theorem minutesDiff_addMinutes (s m e : Z) :
  addMinutes (At s) (Some m) = At e →
  minutesDiff (At s) (At e) = Some m.
Proof.
  unfold addMinutes, minutesDiff, dateOfTime, roundDiv. cbn.
  destruct (Z.abs _ <=? _); [|done]. intros [= <-]. f_equal.
  replace (2 * (s + m * 60 * 1000 - s) + 60 * 1000)
    with (60000 + m * (2 * (60 * 1000))) by lia.
  rewrite Z.div_add by lia. done.
Qed.

(** 45 minutes from 9:00 on 13 January 2025. *)
Lemma minutesDiff_addMinutes_witness :
  minutesDiff (At 1736758800000) (At 1736761500000) = Some 45.
Proof.
  apply (minutesDiff_addMinutes 1736758800000 45 1736761500000).
  reflexivity.
Defined.

Section DurationFacts.
Context `{Platform}.


End DurationFacts.


(** ** Day ranges *)

Section RangeFacts.
Context `{Platform}.

Lemma daysUpTo_invalid (fuel : nat) (actualEnd : Date) :
  Schedule.daysUpTo fuel InvalidDate actualEnd = [].
Proof. by destruct fuel. Qed.

Lemma daysUpTo_elements (fuel : nat) (c : Z) (actualEnd : Date) :
  ∀ (i : nat) d, Schedule.daysUpTo fuel (At c) actualEnd !! i = Some d →
    d = At (c + Z.of_nat i * MS_PER_DAY) ∧ date_le d actualEnd = true.
Proof.
  revert c. induction fuel as [|fuel IH]; intros c i d; [done|].
  cbn [Schedule.daysUpTo].
  destruct (date_le (At c) actualEnd) eqn:Hle; [|done].
  destruct i as [|i]; cbn.
  - intros [= <-]. split; [f_equal; lia|done].
  - unfold addDays, dateOfTime. cbn.
    destruct (Z.abs _ <=? _); [|by rewrite daysUpTo_invalid].
    intros [-> Hd]%IH. split; [f_equal; lia|done].
Qed.

Lemma daysUpTo_more (fuel fuel' : nat) (cursor actualEnd : Date) :
  (length (Schedule.daysUpTo fuel cursor actualEnd) < fuel)%nat →
  (fuel ≤ fuel')%nat →
  Schedule.daysUpTo fuel' cursor actualEnd
  = Schedule.daysUpTo fuel cursor actualEnd.
Proof.
  revert fuel' cursor. induction fuel as [|fuel IH]; intros fuel' cursor;
    [cbn; lia|].
  destruct fuel' as [|fuel']; [lia|]. cbn [Schedule.daysUpTo].
  destruct (date_le cursor actualEnd); [|done].
  cbn [length]. intros Hlen Hfuel. f_equal. apply IH; lia.
Qed.

Lemma daysUpTo_length (fuel : nat) (c n : Z) (actualEnd : Date) :
  (actualEnd = InvalidDate ∨ ∃ e, actualEnd = At e ∧ e < c + n * MS_PER_DAY) →
  0 ≤ n →
  (length (Schedule.daysUpTo fuel (At c) actualEnd) ≤ Z.to_nat n)%nat.
Proof.
  intros Hend Hn.
  destruct (decide (length (Schedule.daysUpTo fuel (At c) actualEnd)
                    ≤ Z.to_nat n)%nat) as [|Hlong]; [done|].
  apply Nat.nle_gt in Hlong.
  apply lookup_lt_is_Some_2 in Hlong as [d Hd].
  apply daysUpTo_elements in Hd as [-> Hle].
  destruct Hend as [->|(e' & -> & He)]; [done|].
  unfold date_le in Hle. cbn in Hle. apply Z.leb_le in Hle.
  rewrite Z2Nat.id in Hle by done. lia.
Qed.

(** X6. [buildRange] gives consecutive days from the start date: the
    day at position [i] is [i] days after the start and not after the
    end date (an unreadable end date sets no limit). A day view has at
    most one day and a week view at most
    seven; the loop has then stopped by its own test, so that more
    rounds change nothing. With an unreadable start date the range is
    empty. *)
Theorem buildRange_days (startInput endInput : string) (view : ViewMode) :
  (∀ (i : nat) d, Schedule.buildRange startInput endInput view !! i = Some d →
     ∃ s, parseISO (startInput +:+ "T00:00:00") = At s
          ∧ d = At (s + Z.of_nat i * MS_PER_DAY)
          ∧ (date_le d (parseISO (endInput +:+ "T00:00:00")) = true
             ∨ parseISO (endInput +:+ "T00:00:00") = InvalidDate))
  ∧ (length (Schedule.buildRange startInput endInput view)
     ≤ match view with DayView => 1 | WeekView => 7 end)%nat
  ∧ (∀ fuel, (8 ≤ fuel)%nat →
       Schedule.buildRangeWith fuel startInput endInput view
       = Schedule.buildRange startInput endInput view)
  ∧ (parseISO (startInput +:+ "T00:00:00") = InvalidDate →
     Schedule.buildRange startInput endInput view = []).
Proof.
  unfold Schedule.buildRange, Schedule.buildRangeWith.
  set (end_ := parseISO (endInput +:+ "T00:00:00")).
  destruct (parseISO (startInput +:+ "T00:00:00")) as [|s] eqn:Hs.
  { rewrite !daysUpTo_invalid. repeat split; try done.
    - cbn. destruct view; lia.
    - intros fuel _. by rewrite daysUpTo_invalid. }
  set (maxEnd := match view with
                 | WeekView => addDays (At s) (Some 6)
                 | DayView => At s
                 end).
  set (actualEnd := if date_lt end_ maxEnd then end_ else maxEnd).
  assert (∀ d, date_le d actualEnd = true →
               date_le d end_ = true ∨ end_ = InvalidDate) as Hend.
  { intros d. unfold actualEnd. destruct (date_lt end_ maxEnd) eqn:Hlt; [auto|].
    unfold date_le, date_lt, num_le, num_lt in *.
    destruct d as [|d], end_ as [|e], maxEnd as [|mx]; cbn in *; auto;
      try done.
    intros Hd%Z.leb_le. apply Z.ltb_ge in Hlt. left. apply Z.leb_le. lia. }
  assert (actualEnd = InvalidDate
          ∨ ∃ e, actualEnd = At e
                 ∧ e < s + match view with DayView => 1 | WeekView => 7 end
                           * MS_PER_DAY) as Hbound.
  { unfold actualEnd.
    assert (maxEnd = InvalidDate
            ∨ ∃ mx, maxEnd = At mx
                    ∧ mx < s + match view with DayView => 1 | WeekView => 7 end
                               * MS_PER_DAY) as [->|(mx & -> & Hmx)].
    { unfold maxEnd, addDays, dateOfTime, MS_PER_DAY. destruct view; cbn.
      - right. exists s. split; [done|lia].
      - destruct (Z.abs _ <=? _); [|by left]. right. eexists. split; [done|lia]. }
    - destruct (date_lt end_ InvalidDate) eqn:Hlt; [|by left].
      unfold date_lt, num_lt in Hlt. by destruct end_.
    - destruct (date_lt end_ (At mx)) eqn:Hlt; [|right; by exists mx].
      unfold date_lt, num_lt in Hlt. destruct end_ as [|e]; [done|].
      cbn in Hlt. apply Z.ltb_lt in Hlt. right. exists e. split; [done|lia]. }
  assert (length (Schedule.daysUpTo 8 (At s) actualEnd)
          ≤ match view with DayView => 1 | WeekView => 7 end)%nat as Hlen.
  { pose proof (daysUpTo_length 8 s
      (match view with DayView => 1 | WeekView => 7 end) actualEnd Hbound
      ltac:(destruct view; lia)) as Hl.
    destruct view; cbn in Hl |- *; lia. }
  split; [|split; [done|split; [|done]]].
  - intros i d Hd. exists s. split; [done|].
    apply daysUpTo_elements in Hd as [-> Hle]. split; [done|].
    by apply Hend.
  - intros fuel Hfuel. apply daysUpTo_more; [|done].
    destruct view; lia.
Qed.

End RangeFacts.

(** ** More on the store *)

Section StoreMore.
Context `{Platform} (clientId : string).

(** A command ends in one of two ways: it throws and leaves the loaded
    state, or it returns a record. *)
Lemma run_outcome (c : Command) (seededAt at_ : string) (s : Storage) :
  ∃ state, readState seededAt s = (Item state, Return state)
    ∧ ((∃ e, run clientId c seededAt at_ s = (Item state, Throw e))
       ∨ (∃ s' appt, run clientId c seededAt at_ s = (s', Return appt))).
Proof.
  destruct (readState_loads seededAt s) as (state & Hread & _).
  exists state. split; [done|].
  destruct (run clientId c seededAt at_ s) as [s' [e|appt]] eqn:Hrun.
  - left. exists e. f_equal. revert Hrun.
    destruct c; open_command; rewrite Hread.
    + overlap_guard; by intros [= <-].
    + guards state current; try overlap_guard; by intros [= <-].
    + guards state current; try overlap_guard; by intros [= <-].
    + guards state current; by intros [= <-].
    + guards state current; by intros [= <-].
  - right. by exists s', appt.
Qed.

(** What a successful status update or cancel leaves of the record. *)
Lemma quiet_success (c : Command) (id seededAt at_ : string)
    (s s' : Storage) (appt : Appointment) :
  revalidates c = false →
  targetId c = Some id →
  run clientId c seededAt at_ s = (s', Return appt) →
  ∃ state current,
    readState seededAt s = (Item state, Return state)
    ∧ List.find (λ a, str_eq (a_id a) id) (appointments state) = Some current
    ∧ isCancelled current = false
    ∧ s' = Item {| version := version state + 1; updatedAt := at_;
                   appointments := replaceById id appt (appointments state) |}
    ∧ a_id appt = a_id current
    ∧ a_therapistId appt = a_therapistId current
    ∧ a_start appt = a_start current
    ∧ a_end appt = a_end current.
Proof.
  destruct (readState_loads seededAt s) as (state & Hread & _).
  intros Hre Hid Hrun. exists state. revert Hrun.
  destruct c; try done; injection Hid as ->; open_command; rewrite Hread;
    guards state current; try done;
    intros [= <- <-]; exists current; by repeat split.
Qed.

(** X7. Status updates and cancellations, which skip the overlap
    check, keep the no-overlap invariant: if it held in the loaded
    state, it holds in the state a successful command stores. *)
Theorem quiet_commands_keep_invariant (c : Command) (seededAt at_ : string)
    (s s0 s' : Storage) (state : StoredSchedulerState) (appt : Appointment) :
  revalidates c = false →
  readState seededAt s = (s0, Return state) →
  no_overlap_invariant (appointments state) →
  run clientId c seededAt at_ s = (s', Return appt) →
  ∃ state', s' = Item state' ∧ no_overlap_invariant (appointments state').
Proof.
  intros Hre Hread Hinv Hrun.
  assert (∃ id, targetId c = Some id) as [id Hid] by (destruct c; eauto; done).
  destruct (quiet_success c id _ _ _ _ _ Hre Hid Hrun) as
    (st & current & Hread' & Hfind & Hcan & -> & Hi & Ht & Hs & He).
  rewrite Hread in Hread'. injection Hread' as _ <-.
  pose proof (find_by_id _ _ _ Hfind) as [Hin Hcur].
  eexists. split; [done|]. cbn [appointments].
  assert (∀ z, overlapping appt z = overlapping current z) as Hsame.
  { intros z. unfold overlapping. by rewrite Hs, He. }
  intros x y Hx%replaceById_elem Hy%replaceById_elem Hxy Hcx Hcy Hxyt.
  destruct Hx as [->|Hx], Hy as [->|Hy].
  - done.
  - rewrite Hsame. apply Hinv; try done; congruence.
  - rewrite overlapping_sym, Hsame. apply Hinv; try done; congruence.
  - by apply Hinv.
Qed.

(** X8. A cancelled record is frozen: whatever command whichever
    session runs next, and however it ends, the record stays in its
    place in the stored list exactly as it is. *)
Theorem cancelled_record_is_frozen (c : Command) (seededAt at_ : string)
    (s s0 : Storage) (state : StoredSchedulerState) (i : nat)
    (r : Appointment) :
  readState seededAt s = (s0, Return state) →
  ids_unique (appointments state) →
  appointments state !! i = Some r →
  isCancelled r = true →
  ∃ state', (run clientId c seededAt at_ s).1 = Item state'
            ∧ appointments state' !! i = Some r.
Proof.
  intros Hread Huniq Hi Hcan.
  destruct (run_outcome c seededAt at_ s) as (st & Hread' & Hout).
  rewrite Hread in Hread'. injection Hread' as _ <-.
  destruct Hout as [(e & ->)|(s' & appt & Hrun)]; [by exists state|].
  rewrite Hrun. cbn [fst].
  destruct (targetId c) as [id|] eqn:Hid.
  - pose proof (record_success clientId c id _ _ _ _ _ Hid Hrun) as
      (st & current & ev & Hread' & Hfind & _ & Hlive & -> & _).
    rewrite Hread in Hread'. injection Hread' as _ <-.
    pose proof (find_by_id _ _ _ Hfind) as [Hin Hcur].
    eexists. split; [done|]. cbn [appointments].
    rewrite replaceById_lookup, Hi. cbn. unfold str_eq.
    case_bool_decide as Hsame; [|done].
    assert (r = current) as ->; [|congruence].
    apply (ids_unique_eq (appointments state)); try done; [|congruence].
    apply list_elem_of_lookup. by exists i.
  - destruct c; try done.
    apply create_success in Hrun as (st & ev & Hread' & -> & _).
    rewrite Hread in Hread'. injection Hread' as _ <-.
    eexists. split; [done|]. cbn [appointments].
    by apply lookup_app_l_Some.
Qed.

(** X9. A session cannot touch what another session created: after a
    successful command, every record created by somebody else is in
    its place exactly as before, and every record keeps its id and its
    creator. *)
Theorem foreign_records_untouched (c : Command) (seededAt at_ : string)
    (s s0 s' : Storage) (state : StoredSchedulerState) (appt : Appointment) :
  readState seededAt s = (s0, Return state) →
  ids_unique (appointments state) →
  run clientId c seededAt at_ s = (s', Return appt) →
  ∃ state', s' = Item state'
    ∧ ∀ (i : nat) a, appointments state !! i = Some a →
        ∃ a', appointments state' !! i = Some a'
              ∧ a_id a' = a_id a ∧ a_createdBy a' = a_createdBy a
              ∧ (a_createdBy a ≠ clientId → a' = a).
Proof.
  intros Hread Huniq Hrun.
  destruct (targetId c) as [id|] eqn:Hid.
  - pose proof (record_success clientId c id _ _ _ _ _ Hid Hrun) as
      (st & current & ev & Hread' & Hfind & Hown & _ & -> & Hida & Hcr & _).
    rewrite Hread in Hread'. injection Hread' as _ <-.
    pose proof (find_by_id _ _ _ Hfind) as [Hin Hcur].
    eexists. split; [done|]. cbn [appointments]. intros i a Hi.
    rewrite replaceById_lookup, Hi. cbn. unfold str_eq.
    case_bool_decide as Hsame; [|by exists a].
    assert (a = current) as ->.
    { apply (ids_unique_eq (appointments state)); try done; [|congruence].
      apply list_elem_of_lookup. by exists i. }
    exists appt. repeat split; try done; congruence.
  - destruct c; try done.
    apply create_success in Hrun as (st & ev & Hread' & -> & _).
    rewrite Hread in Hread'. injection Hread' as _ <-.
    eexists. split; [done|]. cbn [appointments]. intros i a Hi.
    exists a. split; [by apply lookup_app_l_Some|done].
Qed.

End StoreMore.

(** ** The validator and the store together *)

Section ValidatorAndStore.
Context `{Platform}.

(** What an ok verdict of [canScheduleWindow] stands for. *)
Lemma canScheduleWindow_ok (therapistId : string) (start end_ : Date)
    (apps : list Appointment) (locks : list SlotLock)
    (ctx : AvailabilityContext) (ignore : option string) :
  canScheduleWindow therapistId start end_ apps locks ctx ignore = Return Ok
  ↔ ∃ t, List.find (λ t, str_eq (t_id t) therapistId) (therapists ctx) = Some t
       ∧ withinTherapistWorkingHours t start end_ = true
       ∧ hasTimeAwayConflict therapistId start end_ (timeAway ctx) = Return false
       ∧ slotOverlapsLocks therapistId start end_ locks = false
       ∧ hasAppointmentOverlap apps therapistId start end_ ignore = false.
Proof.
  unfold canScheduleWindow.
  destruct (List.find _ (therapists ctx)) as [t|]; cbn.
  - destruct (withinTherapistWorkingHours t start end_) eqn:Hwh; cbn.
    + destruct (hasTimeAwayConflict _ _ _ _) as [e|[]]; cbn.
      * split; [done|]. by intros (? & _ & _ & ? & _).
      * split; [done|]. by intros (? & _ & _ & ? & _).
      * destruct (slotOverlapsLocks _ _ _ _); cbn.
        { split; [done|]. by intros (? & _ & _ & _ & ? & _). }
        destruct (hasAppointmentOverlap _ _ _ _ _); cbn.
        { split; [done|]. by intros (? & _ & _ & _ & _ & ?). }
        split; [|done]. intros _. by exists t.
    + split; [done|]. intros (? & [= <-] & ? & _). congruence.
  - split; [done|]. by intros (? & ? & _).
Qed.

(** No hit of [hasAppointmentOverlap] means no clash for the store's
    own check, whatever record the validator was told to ignore and
    whatever id the store's candidate has. *)
Lemma no_hit_no_clash (apps : list Appointment) (self therapistId start end_ : string)
    (ignore : option string) :
  (∀ a, ignored ignore a → a_id a = self) →
  hasAppointmentOverlap apps therapistId (parseISO start) (parseISO end_) ignore
  = false →
  ¬ clashes apps self therapistId start end_.
Proof.
  intros Hself Hno (a & Ha & Hc & Hid & Ht & Hov).
  apply not_true_iff_false in Hno. apply Hno, hasAppointmentOverlap_spec.
  exists a. repeat split; try done. intros Hig. by apply Hid, Hself.
Qed.

Context (clientId : string).

(** X10. A new booking that [canScheduleWindow] accepts on the stored
    list (the check of the calendar's create form, which ignores no
    record) is accepted by [createAppointment]: the store's overlap
    check cannot refuse it, and the record is appended. *)
Theorem validated_create_is_stored (input : CreateAppointmentInput)
    (newId seededAt at_ : string) (s s0 : Storage)
    (state : StoredSchedulerState) (locks : list SlotLock)
    (ctx : AvailabilityContext) :
  readState seededAt s = (s0, Return state) →
  canScheduleWindow (in_therapistId input) (parseISO (in_start input))
    (parseISO (in_end input)) (appointments state) locks ctx None = Return Ok →
  ∃ appt state',
    createAppointment clientId input newId seededAt at_ s
    = (Item state', Return appt)
    ∧ appointments state' = appointments state ++ [appt]
    ∧ a_id appt = newId ∧ a_therapistId appt = in_therapistId input
    ∧ a_start appt = in_start input ∧ a_end appt = in_end input.
Proof.
  intros Hread (t & _ & _ & _ & _ & Hno)%canScheduleWindow_ok.
  open_command. rewrite Hread.
  match goal with
  | |- context [assertNoOverlapOrThrow ?l ?a] =>
      assert (assertNoOverlapOrThrow l a = Return tt) as ->
  end.
  { apply assertNoOverlap_passes. cbn.
    apply (no_hit_no_clash _ _ _ _ _ None); [|done].
    by intros a (i & [=] & _). }
  eexists _, _. by repeat split.
Qed.

(** X11. A move that [canScheduleWindow] accepts on the stored list
    with the moved record ignored (the check of the calendar's drag and
    drop) is accepted by [rescheduleAppointment] when the record is the
    session's own and not cancelled: the store's overlap check cannot
    refuse it. *)
Theorem validated_move_is_stored (id start end_ seededAt at_ : string)
    (s s0 : Storage) (state : StoredSchedulerState) (current : Appointment)
    (locks : list SlotLock) (ctx : AvailabilityContext) :
  readState seededAt s = (s0, Return state) →
  List.find (λ a, str_eq (a_id a) id) (appointments state) = Some current →
  a_createdBy current = clientId →
  isCancelled current = false →
  canScheduleWindow (a_therapistId current) (parseISO start) (parseISO end_)
    (appointments state) locks ctx (Some id) = Return Ok →
  ∃ appt state',
    rescheduleAppointment clientId id start end_ seededAt at_ s
    = (Item state', Return appt)
    ∧ appointments state' = replaceById id appt (appointments state)
    ∧ a_id appt = id ∧ a_therapistId appt = a_therapistId current
    ∧ a_start appt = start ∧ a_end appt = end_.
Proof.
  intros Hread Hfind Hown Hcan (t & _ & _ & _ & _ & Hno)%canScheduleWindow_ok.
  pose proof (find_by_id _ _ _ Hfind) as [_ Hcur].
  open_command. rewrite Hread.
  unfold findAppointmentOrThrow, assertOwnedOrThrow, str_neq.
  unfold isCancelled in Hcan.
  rewrite Hfind, Hcan, bool_decide_true by done. cbn [negb].
  match goal with
  | |- context [assertNoOverlapOrThrow ?l ?a] =>
      assert (assertNoOverlapOrThrow l a = Return tt) as ->
  end.
  { apply assertNoOverlap_passes. cbn. rewrite Hcur.
    apply (no_hit_no_clash _ _ _ _ _ (Some id)); [|done].
    by intros a (i & [= <-] & _ & ?). }
  eexists _, _. by repeat split.
Qed.

(** X12. A reassignment that [isTherapistAvailable] accepts on the
    stored list without the reassigned record (the check of
    [handleReassign]) is accepted by [reassignAppointment] when the
    record is the session's own and not cancelled. *)
Theorem available_reassign_is_stored (id seededAt at_ : string)
    (s s0 : Storage) (state : StoredSchedulerState) (current : Appointment)
    (therapist : Therapist) (away : list TimeAway) :
  readState seededAt s = (s0, Return state) →
  List.find (λ a, str_eq (a_id a) id) (appointments state) = Some current →
  a_createdBy current = clientId →
  isCancelled current = false →
  Schedule.isTherapistAvailable therapist (a_start current) (a_end current)
    (List.filter (λ appt, str_neq (a_id appt) id) (appointments state)) away
  = true →
  ∃ appt state',
    reassignAppointment clientId id (t_id therapist) seededAt at_ s
    = (Item state', Return appt)
    ∧ appointments state' = replaceById id appt (appointments state)
    ∧ a_id appt = id ∧ a_therapistId appt = t_id therapist
    ∧ a_start appt = a_start current ∧ a_end appt = a_end current.
Proof.
  intros Hread Hfind Hown Hcan Havail.
  pose proof (find_by_id _ _ _ Hfind) as [_ Hcur].
  open_command. rewrite Hread.
  unfold findAppointmentOrThrow, assertOwnedOrThrow, str_neq.
  unfold isCancelled in Hcan.
  rewrite Hfind, Hcan, bool_decide_true by done. cbn [negb].
  match goal with
  | |- context [assertNoOverlapOrThrow ?l ?a] =>
      assert (assertNoOverlapOrThrow l a = Return tt) as ->
  end.
  { apply assertNoOverlap_passes. cbn. rewrite Hcur.
    intros (a & Ha & Hc & Hid & Ht & Hov).
    unfold Schedule.isTherapistAvailable in Havail.
    destruct (Schedule.withinWorkingWindow _ _ _); [|done].
    destruct (Schedule.hasTimeAwayConflict _ _ _ _); [done|]. cbn in Havail.
    apply negb_true_iff, not_true_iff_false in Havail.
    apply Havail, existsb_exists. exists a. split.
    - apply filter_In. split; [by apply list_elem_of_In|].
      unfold str_neq. by rewrite bool_decide_false.
    - unfold isCancelled in Hc. rewrite Hc. unfold str_eq.
      by rewrite bool_decide_true. }
  eexists _, _. by repeat split.
Qed.

End ValidatorAndStore.

Section LocksAndEligibility.
Context `{Platform}.

(** X13. With the locks [getLocksForRange] derives for a session,
    [canScheduleWindow] refuses every window that overlaps a
    non-cancelled booking another session made for the therapist,
    whichever record it is told to ignore; the refusal is never the
    plain "Overlapping appointment". *)
Theorem foreign_booking_blocks_window (session therapistId : string)
    (start end_ : Date) (apps : list Appointment) (ctx : AvailabilityContext)
    (ignore : option string) (a : Appointment) :
  a ∈ apps →
  isCancelled a = false →
  a_createdBy a ≠ session →
  a_therapistId a = therapistId →
  overlaps start end_ (parseISO (a_start a)) (parseISO (a_end a)) = true →
  ∃ reason,
    canScheduleWindow therapistId start end_ apps
      (getLocksForRange apps session) ctx ignore = Return (NotOk reason)
    ∧ reason ≠ "Overlapping appointment".
Proof.
  intros Ha Hc Hown Ht Hov.
  assert (slotOverlapsLocks therapistId start end_
            (getLocksForRange apps session) = true) as Hlock.
  { apply slotOverlapsLocks_spec. exists (lockOf a). split; [|done].
    unfold getLocksForRange. apply list_elem_of_In, in_map, filter_In. split.
    - apply filter_In. split; [by apply list_elem_of_In|].
      unfold isCancelled in Hc. by rewrite Hc.
    - unfold str_neq. by rewrite bool_decide_false. }
  unfold canScheduleWindow.
  destruct (List.find _ (therapists ctx)) as [t|]; cbn; [|by eexists].
  destruct (withinTherapistWorkingHours t start end_) eqn:Hwh; cbn;
    [|by eexists].
  apply withinTherapistWorkingHours_spec in Hwh as (s0 & _ & _ & _ & -> & _).
  destruct (hasTimeAwayConflict_spec therapistId s0 end_ (timeAway ctx))
    as (away & -> & _).
  cbn. destruct away; [by eexists|]. rewrite Hlock. by eexists.
Qed.

Lemma existsb_of_filter {A} (p q : A → bool) (l : list A) :
  existsb p (List.filter q l) = existsb (λ a, q a && p a) l.
Proof.
  induction l as [|a l IH]; [done|]. cbn.
  destruct (q a); cbn; by rewrite IH.
Qed.

Lemma existsb_pointwise {A} (p q : A → bool) (l : list A) :
  (∀ a, p a = q a) → existsb p l = existsb q l.
Proof. intros Hpq. induction l as [|a l IH]; [done|]. cbn. by rewrite Hpq, IH. Qed.

(** X14. How the App's [therapistEligible] relates to
    [canScheduleWindow]: when the id to ignore is not the empty
    string, a therapist is eligible for a window exactly when
    [canScheduleWindow] accepts the window on the same lists without
    locks and, in addition, the window overlaps no time-away entry of
    the therapist of any date. *)
Theorem therapistEligible_vs_canScheduleWindow (staff : list Therapist)
    (apps : list Appointment) (away : list TimeAway)
    (therapistId start end_ : string) (ignore : option string) :
  ignore ≠ Some EmptyString →
  therapistEligible staff apps away therapistId start end_ ignore = true
  ↔ canScheduleWindow therapistId (parseISO start) (parseISO end_) apps []
      {| therapists := staff; timeAway := away |} ignore = Return Ok
    ∧ Schedule.hasTimeAwayConflict therapistId (parseISO start) (parseISO end_)
        away = false.
Proof.
  intros Hignore. rewrite canScheduleWindow_ok. unfold therapistEligible. cbn.
  destruct (List.find _ staff) as [t|] eqn:Hfind;
    [|split; [done|by intros [(? & ? & _) _]]].
  pose proof (find_some _ _ Hfind) as [_ Hid].
  unfold str_eq in Hid. apply bool_decide_eq_true in Hid.
  unfold Schedule.isTherapistAvailable. rewrite Hid.
  change (Schedule.withinWorkingWindow (t_workingHours t))
    with (withinTherapistWorkingHours t).
  assert (existsb (λ appt,
            if truthy (a_cancelledAt appt) then false
            else str_eq (a_therapistId appt) therapistId
                 && overlaps (parseISO start) (parseISO end_)
                      (parseISO (a_start appt)) (parseISO (a_end appt)))
            (List.filter (λ appt,
               str_eq (a_therapistId appt) therapistId
               && negb (bool_decide (Some (a_id appt) = ignore))) apps)
          = hasAppointmentOverlap apps therapistId (parseISO start)
              (parseISO end_) ignore) as ->.
  { rewrite existsb_of_filter. unfold hasAppointmentOverlap.
    apply existsb_pointwise. intros a. unfold str_eq, str_neq.
    assert (truthy ignore && bool_decide (Some (a_id a) = ignore)
            = bool_decide (Some (a_id a) = ignore)) as ->.
    { destruct ignore as [i|]; cbn; [|by rewrite bool_decide_false].
      rewrite (bool_decide_false (i = EmptyString)); [done|]. congruence. }
    destruct (truthy (a_cancelledAt a)), (bool_decide (a_therapistId a = _)),
      (bool_decide (Some (a_id a) = ignore)); cbn; try done. }
  destruct (withinTherapistWorkingHours t (parseISO start) (parseISO end_))
    eqn:Hwh; cbn [negb];
    [|split; [done|intros [(? & [= <-] & ? & _) _]; congruence]].
  pose proof (proj1 (withinTherapistWorkingHours_spec _ _ _) Hwh)
    as (s0 & _ & _ & _ & Hs & _).
  rewrite Hs in *.
  destruct (Schedule.hasTimeAwayConflict therapistId (At s0) (parseISO end_) away)
    eqn:Haway; [split; [done|by intros [_ ?]]|].
  split.
  - intros Hno%negb_true_iff. split; [|done]. exists t.
    split; [done|]. split; [done|]. split; [|done].
    unfold hasTimeAwayConflict. cbn. f_equal.
    apply not_true_iff_false. intros (slot & Hin & Hslot)%existsb_exists.
    apply not_true_iff_false in Haway. apply Haway, existsb_exists.
    exists slot. split; [done|]. unfold str_neq in *.
    destruct (bool_decide (ta_therapistId slot = therapistId)); [|done].
    cbn in *. case_bool_decide as Hd; [|done]. cbn in Hslot. by rewrite Hd.
  - intros [(t' & _ & _ & _ & _ & ->) _]. done.
Qed.

End LocksAndEligibility.

(** ** The read path and the session id *)

Section FetchFacts.
Context `{Platform}.

(** X15. What one session books, every other session sees as locked:
    after a successful create whose start lies in the requested range,
    [fetchSnapshot] by any session returns, without touching the
    storage, a snapshot that holds the new record and carries the new
    version; for a session other than the creator it holds a lock on
    the record's window owned by the creator, and no snapshot holds a
    lock owned by the session that fetched it. *)
Theorem booked_slot_is_locked_for_others (creator viewer : string)
    (input : CreateAppointmentInput) (newId seededAt at_ now : string)
    (rangeStart rangeEnd : string) (s s0 s' : Storage)
    (state : StoredSchedulerState) (appt : Appointment) :
  readState seededAt s = (s0, Return state) →
  createAppointment creator input newId seededAt at_ s = (s', Return appt) →
  Schedule.withinDateRange (in_start input) rangeStart rangeEnd = true →
  ∃ snap,
    fetchSnapshot viewer rangeStart rangeEnd seededAt now s' = (s', Return snap)
    ∧ snap_version snap = version state + 1
    ∧ appt ∈ snap_appointments snap
    ∧ (viewer ≠ creator →
       ∃ l, l ∈ snap_locks snap ∧ lockCarries appt l
            ∧ l_lockedBy l = creator ∧ l_id l = "lock_" +:+ newId)
    ∧ (∀ l, l ∈ snap_locks snap → l_lockedBy l ≠ viewer).
Proof.
  intros Hread Hrun Hrange.
  apply (create_success creator) in Hrun as
    (st & ev & Hread' & -> & Hid & Ht & Hs & He & _ & Hby & Hlive & _).
  rewrite Hread in Hread'. injection Hread' as _ <-.
  unfold fetchSnapshot, mbind, op_bind, mret, op_ret. cbn [readState appointments version].
  eexists. split; [done|]. cbn [snap_version snap_appointments snap_locks].
  assert (appt ∈ List.filter
            (λ a, Schedule.withinDateRange (a_start a) rangeStart rangeEnd)
            (appointments state ++ [appt])) as Hin.
  { apply list_elem_of_In, filter_In. split; [|by rewrite Hs].
    apply in_or_app. right. by left. }
  split; [done|]. split; [done|]. split.
  - intros Hne. eexists. split.
    + unfold buildLocks. apply list_elem_of_In, in_map, filter_In. split.
      * apply filter_In. split; [by apply list_elem_of_In|]. by rewrite Hlive.
      * unfold str_neq. rewrite Hby. by rewrite bool_decide_false.
    + cbn. by rewrite Hid, Hby.
  - intros l (a & <- & Ha)%list_elem_of_In%in_map_iff.
    apply filter_In in Ha as [_ Hown]. unfold str_neq in Hown. cbn.
    by case_bool_decide.
Qed.

End FetchFacts.

(** X16. The session id is stable: [getOrCreateClientId] returns a
    non-empty id and leaves it in the session storage, and a later call
    returns the same id and stores nothing new, whatever [randomId]
    would give then. An id that is already stored is returned as it
    is. *)
Theorem getOrCreateClientId_stable (fresh fresh' : string)
    (session : option string) :
  ∃ id, getOrCreateClientId fresh session = (Some id, id)
        ∧ id ≠ EmptyString
        ∧ getOrCreateClientId fresh' (Some id) = (Some id, id)
        ∧ (truthy session = true → session = Some id).
Proof.
  unfold getOrCreateClientId. destruct session as [existing|].
  - destruct (truthy (Some existing)) eqn:Ht.
    + exists existing. rewrite Ht. repeat split; try done.
      cbn in Ht. apply negb_true_iff in Ht. by apply bool_decide_eq_false in Ht.
    + eexists. by repeat split.
  - eexists. by repeat split.
Qed.

(** ** The detector on a store that keeps the invariant *)

Section DetectorOnStore.
Context `{Platform}.


End DetectorOnStore.

(** ** The availability grid *)

Lemma tiles_app (from to : Z) (l1 l2 : list Segment) :
  tiles from to (l1 ++ l2) ↔ ∃ mid, tiles from mid l1 ∧ tiles mid to l2.
Proof.
  revert from. induction l1 as [|a l1 IH]; intros from; cbn.
  - split; [intros Ht; by exists from|]. by intros (mid & -> & Ht).
  - rewrite IH. split.
    + intros (Hs & Hlt & mid & H1 & H2). by exists mid.
    + intros (mid & (Hs & Hlt & H1) & H2). repeat split; eauto.
Qed.

Lemma neighboursDiffer_snoc (l : list Segment) (a b : Segment) :
  neighboursDiffer (l ++ [a]) → ¬ sameLook a b → neighboursDiffer (l ++ [a; b]).
Proof.
  induction l as [|x l IH]; cbn; [done|].
  intros [Hx Hrest] Hab. split; [|by apply IH].
  destruct l as [|y l]; cbn in *; done.
Qed.

Lemma neighboursDiffer_relook (l : list Segment) (a a' : Segment) :
  neighboursDiffer (l ++ [a]) → sameLook a a' → neighboursDiffer (l ++ [a']).
Proof.
  induction l as [|x l IH]; cbn; [done|].
  intros [Hx Hrest] Haa. split; [|by apply IH].
  destruct l as [|y l]; cbn in *; [|done].
  intros (? & ? & ?). apply Hx. destruct Haa as (? & ? & ?).
  repeat split; congruence.
Qed.

(** One round of the loop keeps the tiling, lengthening it by a step. *)
Lemma pushSlot_keeps (from cursor stepMin : Z) (segs : list Segment)
    (slot : SlotView) :
  0 < stepMin → tiles from cursor segs → neighboursDiffer segs →
  tiles from (cursor + stepMin) (pushSlot segs cursor stepMin slot)
  ∧ neighboursDiffer (pushSlot segs cursor stepMin slot)
  ∧ (∀ seg, seg ∈ segs →
       ∃ seg', seg' ∈ pushSlot segs cursor stepMin slot
               ∧ seg_startMin seg' = seg_startMin seg
               ∧ seg_endMin seg ≤ seg_endMin seg' ∧ sameLook seg seg')
  ∧ (∃ seg', seg' ∈ pushSlot segs cursor stepMin slot
             ∧ seg_startMin seg' ≤ cursor
             ∧ seg_endMin seg' = cursor + stepMin ∧ looksLike seg' slot).
Proof.
  intros Hstep Htiles Hnd. unfold pushSlot.
  destruct (last segs) as [prev|] eqn:Hlast.
  - apply last_Some in Hlast as [init ->].
    apply tiles_app in Htiles as (mid & Hinit & Hs & Hlt & Hend). cbn in Hend.
    destruct (_ && _) eqn:Hcond.
    + rewrite !andb_true_iff in Hcond. destruct Hcond as [[[Hst Hla] Hsu] _].
      apply bool_decide_eq_true in Hst, Hla, Hsu.
      rewrite removelast_last. split; [|split; [|split]].
      * apply tiles_app. exists mid. split; [done|]. cbn. lia.
      * apply (neighboursDiffer_relook _ prev); done.
      * intros seg [Hin|Hseg%list_elem_of_singleton]%elem_of_app.
        -- exists seg. split; [apply elem_of_app; by left|done].
        -- subst seg. eexists. split; [apply elem_of_app; right; by apply list_elem_of_singleton|].
           cbn. repeat split; lia.
      * eexists. split; [apply elem_of_app; right; by apply list_elem_of_singleton|].
        cbn. repeat split; try done; lia.
    + split; [|split; [|split]].
      * apply tiles_app. exists cursor. split.
        -- apply tiles_app. exists mid. by repeat split.
        -- cbn. lia.
      * rewrite <- app_assoc. apply neighboursDiffer_snoc; [done|].
        intros (Hst & Hla & Hsu). cbn in *.
        rewrite !bool_decide_true, (proj2 (Z.eqb_eq _ _) Hend) in Hcond by done.
        done.
      * intros seg Hin. exists seg. split; [apply elem_of_app; by left|done].
      * eexists. split; [apply elem_of_app; right; by apply list_elem_of_singleton|].
        cbn. repeat split; try done; lia.
  - apply last_None in Hlast as ->. cbn in Htiles. subst from. cbn.
    repeat split; try done; try lia.
    + by intros seg ?%elem_of_nil.
    + eexists. split; [by apply list_elem_of_singleton|]. cbn. repeat split; lia.
Qed.

Section GridFacts.
Context `{Platform}.
Context (therapist : Therapist) (dateISO : string) (rangeEndMin stepMin : Z)
  (appts : list Appointment) (away : list TimeAway).

Lemma segmentsFrom_more (fuel fuel' : nat) (cursor : Z)
    (segs r : list Segment) :
  (fuel ≤ fuel')%nat →
  segmentsFrom fuel therapist dateISO cursor rangeEndMin stepMin appts away segs
  = Some r →
  segmentsFrom fuel' therapist dateISO cursor rangeEndMin stepMin appts away segs
  = Some r.
Proof.
  revert fuel' cursor segs.
  induction fuel as [|fuel IH]; intros [|fuel'] cursor segs Hle; cbn;
    destruct (cursor <? rangeEndMin); try done; try lia.
  apply IH. lia.
Qed.

Lemma segmentsFrom_stuck (fuel : nat) (cursor : Z) (segs : list Segment) :
  stepMin ≤ 0 → cursor < rangeEndMin →
  segmentsFrom fuel therapist dateISO cursor rangeEndMin stepMin appts away segs
  = None.
Proof.
  intros Hstep. revert cursor segs.
  induction fuel as [|fuel IH]; intros cursor segs Hlt; cbn;
    rewrite (proj2 (Z.ltb_lt _ _) Hlt); [done|].
  apply IH. lia.
Qed.

Lemma segmentsFrom_inv (from : Z) (fuel : nat) (cursor : Z)
    (segs : list Segment) :
  0 < stepMin →
  tiles from cursor segs → neighboursDiffer segs →
  rangeEndMin - cursor ≤ Z.of_nat fuel * stepMin →
  ∃ segs' k,
    segmentsFrom fuel therapist dateISO cursor rangeEndMin stepMin appts away segs
    = Some segs'
    ∧ 0 ≤ k ∧ rangeEndMin ≤ cursor + k * stepMin
    ∧ (cursor < rangeEndMin → cursor + k * stepMin < rangeEndMin + stepMin)
    ∧ (rangeEndMin ≤ cursor → k = 0 ∧ segs' = segs)
    ∧ tiles from (cursor + k * stepMin) segs' ∧ neighboursDiffer segs'
    ∧ (∀ seg, seg ∈ segs →
         ∃ seg', seg' ∈ segs' ∧ seg_startMin seg' = seg_startMin seg
                 ∧ seg_endMin seg ≤ seg_endMin seg' ∧ sameLook seg seg')
    ∧ (∀ i, 0 ≤ i → cursor + i * stepMin < rangeEndMin →
         shows therapist dateISO stepMin appts away segs' (cursor + i * stepMin)).
Proof.
  intros Hstep. revert cursor segs.
  assert (∀ cursor segs, tiles from cursor segs → neighboursDiffer segs →
    rangeEndMin ≤ cursor →
    ∃ segs' k, Some segs = Some segs'
    ∧ 0 ≤ k ∧ rangeEndMin ≤ cursor + k * stepMin
    ∧ (cursor < rangeEndMin → cursor + k * stepMin < rangeEndMin + stepMin)
    ∧ (rangeEndMin ≤ cursor → k = 0 ∧ segs' = segs)
    ∧ tiles from (cursor + k * stepMin) segs' ∧ neighboursDiffer segs'
    ∧ (∀ seg, seg ∈ segs →
         ∃ seg', seg' ∈ segs' ∧ seg_startMin seg' = seg_startMin seg
                 ∧ seg_endMin seg ≤ seg_endMin seg' ∧ sameLook seg seg')
    ∧ (∀ i, 0 ≤ i → cursor + i * stepMin < rangeEndMin →
         shows therapist dateISO stepMin appts away segs' (cursor + i * stepMin)))
    as Hdone.
  { intros cursor segs Htiles Hnd Hge. exists segs, 0.
    rewrite Z.mul_0_l, Z.add_0_r. repeat split; try done; try lia.
    all: first [ intros seg Hin; exists seg; by repeat split
               | intros i Hi Hlt; nia ]. }
  induction fuel as [|fuel IH]; intros cursor segs Htiles Hnd Hfuel; cbn.
  - destruct (Z.ltb_spec cursor rangeEndMin) as [Hlt|Hge]; [lia|]. by apply Hdone.
  - destruct (Z.ltb_spec cursor rangeEndMin) as [Hlt|Hge]; [|by apply Hdone].
    set (slot := resolveSlot therapist dateISO (Some cursor)
                   (Some (cursor + stepMin)) appts away).
    destruct (pushSlot_keeps from cursor stepMin segs slot Hstep Htiles Hnd)
      as (Htiles1 & Hnd1 & Hold1 & new & Hnew & Hnews & Hnewe & Hnewl).
    destruct (IH _ _ Htiles1 Hnd1) as
      (segs' & k & -> & Hk & Hfin & Hnear & Hstop & Htiles' & Hnd' & Hold' & Hshow');
      [lia|].
    exists segs', (k + 1).
    replace (cursor + (k + 1) * stepMin) with (cursor + stepMin + k * stepMin)
      by lia.
    split; [done|]. split; [lia|]. split; [done|]. split.
    { intros _. destruct (Z.lt_ge_cases (cursor + stepMin) rangeEndMin) as [?|Hlast];
        [auto|]. destruct (Hstop Hlast) as [-> _]. lia. }
    split; [lia|]. split; [done|]. split; [done|]. split.
    + intros seg Hin. destruct (Hold1 seg Hin) as (seg1 & Hin1 & Hs1 & He1 & Hl1).
      destruct (Hold' seg1 Hin1) as (seg' & Hin' & Hs' & He' & Hl').
      exists seg'. split; [done|]. split; [congruence|]. split; [lia|].
      destruct Hl1 as (? & ? & ?), Hl' as (? & ? & ?). repeat split; congruence.
    + intros i Hi Hlt'. destruct (Z.eq_dec i 0) as [->|Hne].
      * rewrite Z.mul_0_l, Z.add_0_r.
        destruct (Hold' new Hnew) as (seg' & Hin' & Hs' & He' & Hl').
        exists seg'. split; [done|]. split; [lia|]. split; [lia|].
        fold slot. destruct Hnewl as (? & ? & ?), Hl' as (? & ? & ?).
        repeat split; congruence.
      * replace (cursor + i * stepMin)
          with (cursor + stepMin + (i - 1) * stepMin) in * by lia.
        apply Hshow'; [lia|done].
Qed.

(** X21. For a positive step and enough rounds, [buildSegments] returns
    segments that lie end to end from the start of the range to the
    first slot boundary at or past its end (so the last segment can
    stick out by less than one step), no two neighbours looking the
    same, and every slot of the range lies within a segment that
    carries the status, label and sublabel [resolveSlot] gives it.
    More rounds give the same segments; an empty range gives none. *)
Theorem buildSegments_tiles_the_range (fuel : nat) (rangeStartMin : Z) :
  0 < stepMin →
  rangeEndMin - rangeStartMin ≤ Z.of_nat fuel * stepMin →
  ∃ segs finish,
    buildSegments fuel therapist dateISO rangeStartMin rangeEndMin stepMin
      appts away = Some segs
    ∧ (∀ fuel', (fuel ≤ fuel')%nat →
         buildSegments fuel' therapist dateISO rangeStartMin rangeEndMin stepMin
           appts away = Some segs)
    ∧ tiles rangeStartMin finish segs ∧ neighboursDiffer segs
    ∧ rangeEndMin ≤ finish
    ∧ (rangeStartMin < rangeEndMin → finish < rangeEndMin + stepMin)
    ∧ (rangeEndMin ≤ rangeStartMin → segs = [])
    ∧ (∀ i, 0 ≤ i → rangeStartMin + i * stepMin < rangeEndMin →
         shows therapist dateISO stepMin appts away segs
           (rangeStartMin + i * stepMin)).
Proof.
  intros Hstep Hfuel. unfold buildSegments.
  destruct (segmentsFrom_inv rangeStartMin fuel rangeStartMin [] Hstep)
    as (segs & k & Hrun & Hk & Hfin & Hnear & Hstop & Htiles & Hnd & _ & Hshow);
    [done|done|done|].
  exists segs, (rangeStartMin + k * stepMin).
  split; [done|]. split.
  { intros fuel' Hle. by apply (segmentsFrom_more fuel). }
  repeat split; try done. intros Hempty. by destruct (Hstop Hempty).
Qed.

(** X22. With a step of zero or less the loop of [buildSegments] never
    ends on a range that is not empty: no number of rounds brings the
    cursor to the end of the range. *)
Theorem buildSegments_needs_positive_step (fuel : nat) (rangeStartMin : Z) :
  stepMin ≤ 0 → rangeStartMin < rangeEndMin →
  buildSegments fuel therapist dateISO rangeStartMin rangeEndMin stepMin
    appts away = None.
Proof. intros Hstep Hlt. by apply segmentsFrom_stuck. Qed.

End GridFacts.

Section SlotFacts.
Context `{Platform}.

(** X23. What [resolveSlot] shows is fixed by the first of these that
    applies: the slot is outside the therapist's working hours (off);
    it runs into a time-away entry of the therapist dated on the day
    (time off, with the reason of the first such entry); it runs into
    a non-cancelled appointment of the therapist (booked, with the
    patient of the first such appointment); none of these
    (available). *)
Theorem resolveSlot_priority (therapist : Therapist) (dateISO : string)
    (startMin endMin : num) (appts : list Appointment) (away : list TimeAway) :
  let slot := resolveSlot therapist dateISO startMin endMin appts away in
  match sv_status slot with
  | SlotOff =>
      offHours therapist dateISO startMin endMin
      ∧ sv_label slot = None ∧ sv_sublabel slot = None
  | SlotTimeOff =>
      ¬ offHours therapist dateISO startMin endMin
      ∧ ∃ before entry after, away = before ++ entry :: after
          ∧ awayOn therapist dateISO startMin endMin entry
          ∧ (∀ e, e ∈ before → ¬ awayOn therapist dateISO startMin endMin e)
          ∧ sv_label slot = Some "Time off"
          ∧ sv_sublabel slot = Some (ta_reason entry)
  | SlotBooked =>
      ¬ offHours therapist dateISO startMin endMin
      ∧ (∀ e, e ∈ away → ¬ awayOn therapist dateISO startMin endMin e)
      ∧ ∃ before a after, appts = before ++ a :: after
          ∧ bookedOn therapist dateISO startMin endMin a
          ∧ (∀ b, b ∈ before → ¬ bookedOn therapist dateISO startMin endMin b)
          ∧ sv_label slot = Some (match a_type a with
                                  | Evaluation => "Eval"
                                  | Followup => "Follow-up"
                                  end)
          ∧ sv_sublabel slot = Some (a_patient a)
  | SlotAvailable =>
      ¬ offHours therapist dateISO startMin endMin
      ∧ (∀ e, e ∈ away → ¬ awayOn therapist dateISO startMin endMin e)
      ∧ (∀ a, a ∈ appts → ¬ bookedOn therapist dateISO startMin endMin a)
      ∧ sv_label slot = Some "Available" ∧ sv_sublabel slot = None
  end.
Proof.
  set (awayTest := λ entry : TimeAway,
    if str_neq (ta_therapistId entry) (t_id therapist)
       || str_neq (ta_date entry) dateISO then false
    else overlaps (atDate dateISO startMin) (atDate dateISO endMin)
           (atDate dateISO (toMinutes (ta_start entry)))
           (atDate dateISO (toMinutes (ta_end entry)))).
  set (bookedTest := λ a : Appointment,
    if truthy (a_cancelledAt a) then false
    else if str_neq (a_therapistId a) (t_id therapist) then false
    else overlaps (atDate dateISO startMin) (atDate dateISO endMin)
           (parseISO (a_start a)) (parseISO (a_end a))).
  assert (∀ e, awayTest e = true ↔ awayOn therapist dateISO startMin endMin e)
    as Haway.
  { intros e. unfold awayTest, awayOn, str_neq.
    destruct (decide (ta_therapistId e = t_id therapist)) as [Ht|Ht];
      [rewrite (bool_decide_true _ Ht)|rewrite (bool_decide_false _ Ht)]; cbn;
      [|split; [done|by intros (? & _)]].
    destruct (decide (ta_date e = dateISO)) as [Hd|Hd];
      [rewrite (bool_decide_true _ Hd)|rewrite (bool_decide_false _ Hd)]; cbn;
      [|split; [done|by intros (_ & ? & _)]].
    split; [done|by intros (_ & _ & ?)]. }
  assert (∀ a, bookedTest a = true ↔ bookedOn therapist dateISO startMin endMin a)
    as Hbooked.
  { intros a. unfold bookedTest, bookedOn, isCancelled, str_neq.
    destruct (truthy (a_cancelledAt a)); cbn;
      [split; [done|by intros (? & _)]|].
    destruct (decide (a_therapistId a = t_id therapist)) as [Ht|Ht];
      [rewrite (bool_decide_true _ Ht)|rewrite (bool_decide_false _ Ht)]; cbn;
      [|split; [done|by intros (_ & ? & _)]].
    split; [done|by intros (_ & _ & ?)]. }
  assert (∀ {A} (p : A → bool) (l : list A),
    match List.find p l with
    | Some x => ∃ before after, l = before ++ x :: after ∧ p x = true
                  ∧ ∀ y, y ∈ before → p y ≠ true
    | None => ∀ y, y ∈ l → p y ≠ true
    end) as Hfind.
  { intros A p l. induction l as [|x l IH]; cbn; [by intros y ?%elem_of_nil|].
    destruct (p x) eqn:Hx.
    - exists [], l. split; [done|]. split; [done|]. by intros y ?%elem_of_nil.
    - destruct (List.find p l) as [z|].
      + destruct IH as (before & after & -> & Hz & Hb).
        exists (x :: before), after. split; [done|]. split; [done|].
        intros y [->|Hy]%elem_of_cons; [congruence|auto].
      + intros y [->|Hy]%elem_of_cons; [congruence|auto]. }
  unfold resolveSlot. fold awayTest bookedTest.
  unfold includes. case_bool_decide as Hday; cbn [negb];
    [|cbn; split; [by left|done]].
  destruct (num_lt startMin _) eqn:Hlo; cbn [orb];
    [cbn; split; [right; by left|done]|].
  destruct (num_gt endMin _) eqn:Hhi;
    [cbn; split; [right; by right|done]|].
  assert (¬ offHours therapist dateISO startMin endMin) as Hon.
  { intros [?|[?|?]]; congruence. }
  pose proof (Hfind _ awayTest away) as Ha.
  destruct (List.find awayTest away) as [entry|]; cbn.
  - destruct Ha as (before & after & -> & Hentry & Hb).
    split; [done|]. exists before, entry, after.
    split; [done|]. split; [by apply Haway|]. split; [|done].
    intros e He Hon'%Haway. by apply (Hb e).
  - pose proof (Hfind _ bookedTest appts) as Hp.
    destruct (List.find bookedTest appts) as [a|]; cbn.
    + destruct Hp as (before & after & -> & Hhit & Hb).
      split; [done|]. split.
      { intros e He Hon'%Haway. by apply (Ha e). }
      exists before, a, after.
      split; [done|]. split; [by apply Hbooked|]. split; [|done].
      intros b Hb' Hon'%Hbooked. by apply (Hb b).
    + split; [done|]. split.
      { intros e He Hon'%Haway. by apply (Ha e). }
      split; [|done]. intros a Hin Hon'%Hbooked. by apply (Hp a).
Qed.

End SlotFacts.

(** ** Snapping a date, in a fixed-offset zone *)

(** The local minute of the day, and the local midnight, of an instant
    in a zone [offset] minutes east of UTC. *)
Lemma zone_minute_of_day (L : Z) :
  (L / 3600000) mod 24 * 60 + (L / 60000) mod 60 = (L / 60000) mod 1440
  ∧ L / MS_PER_DAY * MS_PER_DAY
    = L - (L / 60000) mod 1440 * 60000 - L mod 60000
  ∧ 0 ≤ (L / 60000) mod 1440 < 1440 ∧ 0 ≤ L mod 60000 < 60000.
Proof. unfold MS_PER_DAY. Z.div_mod_to_equations. lia. Qed.

Lemma zoneSetHours_minutes (offset t s : Z) :
  0 ≤ s →
  zoneSetHours offset (At t) (hoursOf (Some s)) (minutesOf (Some s))
  = dateOfTime (Some ((t + offset * 60000) / MS_PER_DAY * MS_PER_DAY
                      + s * 60000 - offset * 60000)).
Proof.
  intros Hs. unfold zoneSetHours, hoursOf, minutesOf. do 2 f_equal.
  rewrite Z.rem_mod_nonneg by lia.
  pose proof (Z.div_mod s 60 ltac:(lia)). lia.
Qed.

(** X24. In a zone at a fixed offset from UTC, [snapDateToSlot] with a
    slot of 1 to 1440 minutes puts a date on a slot boundary counted
    from the local midnight of the date's day, seconds and
    milliseconds cleared. In mode floor the result is not after the
    date and less than a slot before it; in mode round it is at most
    half a slot after the date and less than half a slot and a minute
    before it. *)
Theorem snapDateToSlot_in_zone (offset t slot : Z) :
  0 < slot ≤ 1440 →
  Z.abs t ≤ 8640000000000000 - 2 * MS_PER_DAY →
  ∃ lo near j k,
    @snapDateToSlot (zone offset) (zoneSetters offset) (At t) (Some slot) Floor
    = At lo
    ∧ @snapDateToSlot (zone offset) (zoneSetters offset) (At t) (Some slot) Round
      = At near
    ∧ lo + offset * 60000
      = (t + offset * 60000) / MS_PER_DAY * MS_PER_DAY + j * (slot * 60000)
    ∧ near + offset * 60000
      = (t + offset * 60000) / MS_PER_DAY * MS_PER_DAY + k * (slot * 60000)
    ∧ 0 ≤ j ≤ k
    ∧ lo ≤ t < lo + slot * 60000
    ∧ 2 * (near - t) ≤ slot * 60000
    ∧ 2 * (t - near) < slot * 60000 + 120000.
Proof.
  intros Hslot Ht.
  set (L := t + offset * 60000).
  destruct (zone_minute_of_day L) as (Hmin & Hday & Hm & Hrest).
  set (m := (L / 60000) mod 1440) in *.
  set (j := m / slot). set (k := roundDiv m slot).
  assert (0 ≤ j ∧ j * slot ≤ m < j * slot + slot) as (Hj0 & Hj).
  { unfold j. pose proof (Z.div_mod m slot ltac:(lia)).
    pose proof (Z.mod_pos_bound m slot ltac:(lia)).
    split; [apply Z.div_pos; lia|nia]. }
  assert (0 ≤ k ∧ 2 * (k * slot - m) ≤ slot ∧ 2 * (m - k * slot) < slot)
    as (Hk0 & Hk1 & Hk2).
  { unfold k, roundDiv.
    pose proof (Z.div_mod (2 * m + slot) (2 * slot) ltac:(lia)).
    pose proof (Z.mod_pos_bound (2 * m + slot) (2 * slot) ltac:(lia)).
    split; [apply Z.div_pos; lia|nia]. }
  assert (j ≤ k) as Hjk by nia.
  assert (∀ mode, @snapDateToSlot (zone offset) (zoneSetters offset) (At t)
            (Some slot) mode
          = zoneSetHours offset (At t)
              (hoursOf (snapMinutes (Some m) (Some slot) mode))
              (minutesOf (snapMinutes (Some m) (Some slot) mode))) as Hsnap.
  { intros mode. unfold snapDateToSlot. cbn. fold L. by rewrite Hmin. }
  unfold MS_PER_DAY in Ht.
  exists (L / MS_PER_DAY * MS_PER_DAY + j * slot * 60000 - offset * 60000),
         (L / MS_PER_DAY * MS_PER_DAY + k * slot * 60000 - offset * 60000), j, k.
  rewrite !Hsnap. unfold snapMinutes.
  rewrite (proj2 (Z.eqb_neq slot 0)) by lia. fold j k.
  rewrite !zoneSetHours_minutes by nia. fold L.
  rewrite Hday. unfold dateOfTime, L in *.
  rewrite !(proj2 (Z.leb_le _ _)) by nia.
  repeat split; try done; nia.
Qed.

(** ** The status table and the seed *)

(** X25. The table [nextAllowedStatuses] lists for a status exactly the
    statuses of a later stage: it never offers the status itself or an
    earlier one, a status reached in two listed steps is listed for
    one, and completed and incomplete visits have no next status. *)
Theorem nextAllowedStatuses_only_forward (s t : AppointmentStatus) :
  (t ∈ nextAllowedStatuses s ↔ stage s < stage t)
  ∧ (nextAllowedStatuses s = [] ↔ s = Completed ∨ s = Incomplete).
Proof.
  split.
  - destruct s, t; apply (bool_decide_unpack _); vm_compute; exact I.
  - destruct s; cbn; split; intros Hs; try done; try (by auto);
      by destruct Hs.
Qed.

(** The zone enters the reading of a date-time string only at the
    end: a string closed by [Z] is read alike in every zone, any other
    is read [offset] minutes earlier than in UTC. *)
Lemma isoParse_zone (value : string) :
  ∃ zulu : bool, ∀ offset,
    isoParse offset value
    = match isoParse 0 value with
      | Some fields => Some (if zulu then fields else fields - offset * 60000)
      | None => None
      end.
Proof.
  unfold isoParse.
  repeat match goal with
  | |- context [takeDigits ?n ?a ?s] =>
      destruct (takeDigits n a s) as [[? ?]|]; cbn [mbind option_bind];
        [|by exists true]
  | |- context [expect ?c ?s] =>
      destruct (expect c s); cbn [mbind option_bind]; [|by exists true]
  end.
  match goal with
  | |- context [isoSuffix ?s] =>
      destruct (isoSuffix s) as [[? zulu]|]; cbn [mbind option_bind];
        [|by exists true]
  end.
  exists zulu. intros offset.
  match goal with |- context [if ?c then _ else None] => destruct c end;
    [|done].
  destruct zulu; f_equal; lia.
Qed.

Lemma parseISO_local (offset : Z) (value : string) (fields : Z) :
  isoParse 0 value = Some fields →
  isoParse 1 value = Some (fields - 60000) →
  @parseISO (zone offset) value = At (fields - offset * 60000).
Proof.
  destruct (isoParse_zone value) as [zulu Hzone].
  intros Hutc Hone. rewrite (Hzone 1), Hutc in Hone.
  unfold parseISO. cbn. unfold zoneNewDate. rewrite (Hzone offset), Hutc.
  destruct zulu; [injection Hone; lia|done].
Qed.

(** X26. The state [readState] seeds an empty or unparsable storage
    with does not satisfy the no-overlap invariant, in any fixed-offset
    zone: its bookings a1 (9:00-10:00) and a2 (9:30-10:30) of 13
    January are both for therapist t1. *)
Theorem seeded_store_breaks_invariant (offset : Z) (seededAt : string)
    (s : Storage) :
  (∀ state, s ≠ Item state) →
  ∃ state,
    readState seededAt s = (Item state, Return state)
    ∧ version state = 1
    ∧ ¬ @no_overlap_invariant (zone offset) (appointments state).
Proof.
  intros Hnone.
  assert (readState seededAt s
          = (Item {| version := 1; updatedAt := seededAt;
                     appointments := seedAppointments |},
             Return {| version := 1; updatedAt := seededAt;
                       appointments := seedAppointments |})) as Hread.
  { destruct s as [| |state]; try done. by destruct (Hnone state). }
  eexists. split; [exact Hread|]. split; [done|]. cbn [appointments].
  intros Hinv.
  specialize (Hinv (seedAppointment "a1" "c1" "t1" "D. Carter" "2025-01-13"
                      "09:00" "10:00" Evaluation)
                   (seedAppointment "a2" "c1" "t1" "R. Patel" "2025-01-13"
                      "09:30" "10:30" Followup)).
  assert (@overlapping (zone offset)
            (seedAppointment "a1" "c1" "t1" "D. Carter" "2025-01-13"
               "09:00" "10:00" Evaluation)
            (seedAppointment "a2" "c1" "t1" "R. Patel" "2025-01-13"
               "09:30" "10:30" Followup) = true) as Hov.
  { unfold overlapping. cbn [a_start a_end seedAppointment].
    erewrite !parseISO_local by (lazy; reflexivity).
    unfold overlaps, date_lt, date_gt, num_gt, num_lt. cbn [getTime].
    apply andb_true_iff. split; apply Z.ltb_lt; lia. }
  rewrite Hinv in Hov; try done; unfold seedAppointments.
  - apply list_elem_of_here.
  - apply list_elem_of_further, list_elem_of_here.
Qed.

(** ** The further properties at concrete inputs *)

(** Session A cancels its 9:00-10:00: the invariant is kept. *)
Lemma quiet_commands_keep_invariant_witness :
  ∃ state',
    (run sessionA (Cancel "a1") clockSeed clockNow shared).1 = Item state'
    ∧ no_overlap_invariant (appointments state').
Proof.
  assert (∃ s' appt,
    run sessionA (Cancel "a1") clockSeed clockNow shared = (s', Return appt))
    as (s' & appt & Hrun).
  { eexists _, _. lazy. reflexivity. }
  destruct (quiet_commands_keep_invariant sessionA (Cancel "a1") clockSeed
    clockNow shared shared s' _ appt eq_refl eq_refl shared_no_overlap Hrun)
    as (state' & Hs' & Hinv).
  exists state'. rewrite Hrun. by split.
Defined.

(** Session A tries to complete the booking it has cancelled: the
    record stays as it is. *)
Lemma cancelled_record_is_frozen_witness :
  ∃ state',
    (run sessionA (UpdateStatus "a1" Completed) clockSeed clockNow withdrawn).1
    = Item state'
    ∧ appointments state' !! 0%nat = Some withdrawnMorning.
Proof.
  apply (cancelled_record_is_frozen sessionA (UpdateStatus "a1" Completed)
    clockSeed clockNow withdrawn withdrawn (stateOf [withdrawnMorning; midday])
    0%nat withdrawnMorning eq_refl); [|done|done].
  apply (bool_decide_unpack _). vm_compute. exact I.
Defined.

(** Session A cancels its 9:00-10:00: session B's 10:00-11:00 is where
    and what it was. *)
Lemma foreign_records_untouched_witness :
  ∃ state',
    (run sessionA (Cancel "a1") clockSeed clockNow shared).1 = Item state'
    ∧ appointments state' !! 1%nat = Some midday.
Proof.
  assert (∃ s' appt,
    run sessionA (Cancel "a1") clockSeed clockNow shared = (s', Return appt))
    as (s' & appt & Hrun).
  { eexists _, _. lazy. reflexivity. }
  destruct (foreign_records_untouched sessionA (Cancel "a1") clockSeed
    clockNow shared shared s' _ appt eq_refl shared_ids_unique Hrun)
    as (state' & Hs' & Hkept).
  exists state'. rewrite Hrun. split; [done|].
  destruct (Hkept 1%nat midday eq_refl) as (a' & Ha' & _ & _ & Hsame).
  rewrite Ha'. f_equal. by apply Hsame.
Defined.

(** Session B's request for the free 11:00-12:00 on t1 passes the
    validator and is stored. *)
Lemma validated_create_is_stored_witness :
  ∃ appt state',
    createAppointment sessionB freeRequest "n1" clockSeed clockNow shared
    = (Item state', Return appt)
    ∧ appointments state' = [morning; midday; finished] ++ [appt]
    ∧ a_id appt = "n1" ∧ a_therapistId appt = "t1"
    ∧ a_start appt = "2025-01-13T11:00:00"
    ∧ a_end appt = "2025-01-13T12:00:00".
Proof.
  apply (validated_create_is_stored sessionB freeRequest "n1" clockSeed
    clockNow shared shared (stateOf [morning; midday; finished]) []
    courseContext eq_refl).
  vm_compute. reflexivity.
Defined.

(** Session A's move of its 9:00-10:00 to 11:00-12:00 passes the
    validator and is stored. *)
Lemma validated_move_is_stored_witness :
  ∃ appt state',
    rescheduleAppointment sessionA "a1" "2025-01-13T11:00:00"
      "2025-01-13T12:00:00" clockSeed clockNow shared
    = (Item state', Return appt)
    ∧ appointments state'
      = replaceById "a1" appt [morning; midday; finished]
    ∧ a_id appt = "a1" ∧ a_therapistId appt = "t1"
    ∧ a_start appt = "2025-01-13T11:00:00"
    ∧ a_end appt = "2025-01-13T12:00:00".
Proof.
  apply (validated_move_is_stored sessionA "a1" "2025-01-13T11:00:00"
    "2025-01-13T12:00:00" clockSeed clockNow shared shared
    (stateOf [morning; midday; finished]) morning [] courseContext
    eq_refl eq_refl eq_refl eq_refl).
  vm_compute. reflexivity.
Defined.

(** Session A hands its 9:00-10:00 over to therapist t4, who is free
    then. *)
Lemma available_reassign_is_stored_witness :
  ∃ appt state',
    reassignAppointment sessionA "a1" "t4" clockSeed clockNow shared
    = (Item state', Return appt)
    ∧ appointments state'
      = replaceById "a1" appt [morning; midday; finished]
    ∧ a_id appt = "a1" ∧ a_therapistId appt = "t4"
    ∧ a_start appt = "2025-01-13T09:00:00"
    ∧ a_end appt = "2025-01-13T10:00:00".
Proof.
  apply (available_reassign_is_stored sessionA "a1" clockSeed clockNow shared
    shared (stateOf [morning; midday; finished]) morning marcus mockTimeAway
    eq_refl eq_refl eq_refl eq_refl).
  vm_compute. reflexivity.
Defined.

(** Session B asks for 9:30-10:30 on t1, into session A's 9:00-10:00,
    and names that booking as the one to ignore: refused all the same. *)
Lemma foreign_booking_blocks_window_witness :
  ∃ reason,
    canScheduleWindow "t1" (parseISO "2025-01-13T09:30:00")
      (parseISO "2025-01-13T10:30:00") [morning; midday; finished]
      (getLocksForRange [morning; midday; finished] sessionB) courseContext
      (Some "a1")
    = Return (NotOk reason)
    ∧ reason ≠ "Overlapping appointment".
Proof.
  apply (foreign_booking_blocks_window sessionB "t1" _ _ _ courseContext
    (Some "a1") morning); try done.
  apply list_elem_of_here.
Defined.

(** Therapist t1 and the free 11:00-12:00 of 13 January. *)
Lemma therapistEligible_vs_canScheduleWindow_witness :
  therapistEligible mockTherapists [morning; midday; finished] mockTimeAway
    "t1" "2025-01-13T11:00:00" "2025-01-13T12:00:00" None = true
  ↔ canScheduleWindow "t1" (parseISO "2025-01-13T11:00:00")
      (parseISO "2025-01-13T12:00:00") [morning; midday; finished] []
      {| therapists := mockTherapists; timeAway := mockTimeAway |} None
    = Return Ok
    ∧ Schedule.hasTimeAwayConflict "t1" (parseISO "2025-01-13T11:00:00")
        (parseISO "2025-01-13T12:00:00") mockTimeAway = false.
Proof.
  apply (therapistEligible_vs_canScheduleWindow mockTherapists
    [morning; midday; finished] mockTimeAway "t1" "2025-01-13T11:00:00"
    "2025-01-13T12:00:00" None).
  done.
Defined.

(** Session A books the free 11:00-12:00 on t1; session B then fetches
    the week and finds the slot locked by A. *)
Lemma booked_slot_is_locked_for_others_witness :
  ∃ s' appt snap l,
    createAppointment sessionA freeRequest "n1" clockSeed clockNow shared
    = (s', Return appt)
    ∧ fetchSnapshot sessionB "2025-01-13" "2025-01-19" clockSeed clockNow s'
      = (s', Return snap)
    ∧ snap_version snap = 2
    ∧ l ∈ snap_locks snap ∧ lockCarries appt l ∧ l_lockedBy l = sessionA.
Proof.
  assert (∃ s' appt,
    createAppointment sessionA freeRequest "n1" clockSeed clockNow shared
    = (s', Return appt)) as (s' & appt & Hrun).
  { eexists _, _. lazy. reflexivity. }
  destruct (booked_slot_is_locked_for_others sessionA sessionB freeRequest
    "n1" clockSeed clockNow clockNow "2025-01-13" "2025-01-19" shared shared
    s' (stateOf [morning; midday; finished]) appt eq_refl Hrun)
    as (snap & Hfetch & Hversion & _ & Hlock & _).
  { vm_compute. reflexivity. }
  destruct Hlock as (l & Hl & Hcarries & Hby & _); [done|].
  by exists s', appt, snap, l.
Defined.

(** Session B's create with the unused id n1 keeps the ids unique. *)
Lemma ids_unique_kept_witness :
  ∃ state',
    (run sessionB (Create freeRequest "n1") clockSeed clockNow shared).1
    = Item state'
    ∧ ids_unique (appointments state').
Proof.
  assert (∃ s' appt,
    run sessionB (Create freeRequest "n1") clockSeed clockNow shared
    = (s', Return appt)) as (s' & appt & Hrun).
  { eexists _, _. lazy. reflexivity. }
  destruct (ids_unique_kept sessionB (Create freeRequest "n1") clockSeed
    clockNow shared shared s' _ appt eq_refl shared_ids_unique) as
    (state' & Hs' & Huniq); [|exact Hrun|].
  - intros input newId [= <- <-] a Ha. cbn in Ha.
    repeat (apply elem_of_cons in Ha as [->|Ha]); try done.
    by apply elem_of_nil in Ha.
  - exists state'. rewrite Hrun. by split.
Defined.

(** Nothing is flagged among the three bookings of the shared store,
    and indeed the two on t1 do not overlap. *)
Lemma nothing_flagged_nothing_overlaps_witness :
  overlapping morning midday = false.
Proof.
  refine (nothing_flagged_nothing_overlaps [morning; midday; finished] _ _
            morning midday _ _ _ eq_refl eq_refl eq_refl).
  - intros a Ha _.
    repeat (apply elem_of_cons in Ha as [->|Ha]);
      try (by apply elem_of_nil in Ha);
      eexists _, _; (split; [lazy; reflexivity|]);
      (split; [lazy; reflexivity|]); lia.
  - apply (bool_decide_unpack _). vm_compute. exact I.
  - apply list_elem_of_here.
  - apply list_elem_of_further, list_elem_of_here.
  - done.
Defined.

(** The long booking, flagged among the nested ones, overlaps a
    neighbour. *)
Lemma flagged_is_in_conflict_witness :
  ∃ x y, [x; y] ⊆+ [long; early; late]
         ∧ isCancelled x = false ∧ isCancelled y = false
         ∧ a_therapistId x = a_therapistId y ∧ overlapping x y = true
         ∧ ("n1" = a_id x ∨ "n1" = a_id y).
Proof.
  apply (flagged_is_in_conflict [long; early; late] "n1").
  apply (bool_decide_unpack _). vm_compute. exact I.
Defined.


(** The grid of therapist t1 for 13 January, 7:00 to 18:00 in steps of
    30 minutes, as the component asks for it. *)
Lemma buildSegments_tiles_the_range_witness :
  ∃ segs finish,
    buildSegments 22 alex "2025-01-13" 420 1080 30
      [morning; midday; finished] mockTimeAway = Some segs
    ∧ tiles 420 finish segs ∧ neighboursDiffer segs
    ∧ 1080 ≤ finish < 1080 + 30
    ∧ shows alex "2025-01-13" 30 [morning; midday; finished] mockTimeAway
        segs 540.
Proof.
  destruct (buildSegments_tiles_the_range alex "2025-01-13" 1080 30
    [morning; midday; finished] mockTimeAway 22 420 ltac:(lia) ltac:(lia))
    as (segs & finish & Hrun & _ & Htiles & Hnd & Hfin & Hnear & _ & Hshow).
  exists segs, finish. split; [exact Hrun|]. split; [done|]. split; [done|].
  split; [lia|]. apply (Hshow 4); lia.
Defined.

(** The same grid with a step of 0: a hundred rounds do not end it. *)
Lemma buildSegments_needs_positive_step_witness :
  buildSegments 100 alex "2025-01-13" 420 1080 0
    [morning; midday; finished] mockTimeAway = None.
Proof.
  apply (buildSegments_needs_positive_step alex "2025-01-13" 1080 0
    [morning; midday; finished] mockTimeAway 100 420); lia.
Defined.

(** 13 January 2025, 16:30:45 UTC, eight hours west of UTC, on a grid
    of 15 minutes. *)
Lemma snapDateToSlot_in_zone_witness :
  ∃ lo near,
    @snapDateToSlot (zone (-480)) (zoneSetters (-480)) (At 1736785845000)
      (Some 15) Floor = At lo
    ∧ @snapDateToSlot (zone (-480)) (zoneSetters (-480)) (At 1736785845000)
        (Some 15) Round = At near
    ∧ lo ≤ 1736785845000 < lo + 15 * 60000
    ∧ 2 * (near - 1736785845000) ≤ 15 * 60000.
Proof.
  destruct (snapDateToSlot_in_zone (-480) 1736785845000 15 ltac:(lia))
    as (lo & near & j & k & Hlo & Hnear & _ & _ & _ & Hfloor & Hround & _).
  { unfold MS_PER_DAY. lia. }
  by exists lo, near.
Defined.

(** A storage that holds nothing, read in UTC. *)
Lemma seeded_store_breaks_invariant_witness :
  ∃ state,
    readState clockSeed NoItem = (Item state, Return state)
    ∧ version state = 1
    ∧ ¬ @no_overlap_invariant (zone 0) (appointments state).
Proof. by apply (seeded_store_breaks_invariant 0 clockSeed NoItem). Defined.
